(** * tp_control: the CoreInterface channel and signal registry

    A shallow embedding of [CoreInterfaceHandle] and [CoreInterface]
    (inc/tp_control/CoreInterface.h, src/CoreInterface.cpp) and the
    properties of handle allocation, channel writes, handle identity,
    binding persistence and signal dispatch.

    The registry is modelled in the form that asserts the owner thread in
    every member function, notifies channel listeners through the callback
    collections [channelListChanged] and [channelChanged], and keeps the
    signal listeners per type in [signalCallbacks]; the handle class is the
    one with [is] and [isValid].

    Objects created with [new] live in an explicit memory, addressed by
    their index; raw pointers are [pointer] values, so that pointer
    identity, aliasing between copies of a handle and [delete] are all
    visible.  A member function returns [None] when it aborts, and
    otherwise its value, the state it leaves and the events it caused.
    Listener callbacks are opaque [std::function] objects: a call of one is
    recorded as an event, together with the arguments it receives.  The
    listeners themselves are taken not to call back into the registry
    during dispatch.

    A [delete] of a data object is recorded as an event too; the model
    keeps no record of which data objects are still alive.  Deleting an
    object a second time, which the program must not do, therefore shows as
    a second [EvDelete] of the same object in the events and not as an
    abort.  Where a statement says that a call returns, it is made for
    histories in which no data object is handed over twice, and it says
    that then no object is destroyed twice. *)

From Stdlib Require OrderedTypeEx.
From stdpp Require Import gmap strings list fin_maps.

(* ===================================================================== *)
(** ** Raw pointers *)

(** A raw pointer: [nullptr] or the address of an object. *)
Inductive pointer : Type :=
| nullptr
| ptr (a : nat).

#[global] Instance pointer_eq_dec : EqDecision pointer.
Proof. solve_decision. Defined.

(** [if(p)] *)
Definition is_nonnull (p : pointer) : bool :=
  match p with nullptr => false | ptr _ => true end.

(* ===================================================================== *)
(** ** tp_utils::StringID *)

(** Modelled from the spec: tp_utils::StringID is declared in
    tp_utils/StringID.h, outside this repository.  It is an interned string
    with a validity flag: two keys are equal iff their source strings are
    equal, and the empty (or unset) key is the invalid one. *)
Record StringID : Type := mkStringID { keyString : string }.

#[global] Instance StringID_eq_dec : EqDecision StringID.
Proof. solve_decision. Defined.

#[global] Instance StringID_countable : Countable StringID.
Proof. exact (inj_countable' keyString mkStringID (fun k => match k with mkStringID _ => eq_refl end)). Defined.

(** [StringID()] *)
Definition StringID_default : StringID := mkStringID EmptyString.

(** [StringID(const std::string&)], the implicit conversion used when a
    [std::string] is passed where a key is expected. *)
Definition StringID_of_string (s : string) : StringID := mkStringID s.

(** [StringID::isValid()] *)
Definition StringID_isValid (k : StringID) : bool :=
  bool_decide (keyString k ≠ EmptyString).

(** [StringID::toString()] *)
Definition toString (k : StringID) : string := keyString k.

(* ===================================================================== *)
(** ** nlohmann::json and TPJSONString *)

(** Modelled from the spec: the structured document of json.hpp, outside
    this repository; only the shapes that [saveState] and [loadState] can
    meet are kept.  An object is kept as an association list with unique
    keys. *)
#[local] Unset Elimination Schemes.
Inductive json : Type :=
| JNull
| JBool (b : bool)
| JNumber (z : Z)
| JString (s : string)
| JObject (fields : list (string * json)).
#[local] Set Elimination Schemes.

Fixpoint fields_lookup (key : string) (fields : list (string * json)) : option json :=
  match fields with
  | [] => None
  | (k, v) :: rest => if decide (k = key) then Some v else fields_lookup key rest
  end.

Fixpoint fields_assign (key : string) (v : json) (fields : list (string * json))
  : list (string * json) :=
  match fields with
  | [] => [(key, v)]
  | (k, w) :: rest =>
      if decide (k = key) then (k, v) :: rest
      else (k, w) :: fields_assign key v rest
  end.

(** [j[key] = v]: a null document becomes an object first; on a document
    that is neither null nor an object the library raises a type error
    ([None]). *)
Definition json_assign (j : json) (key : string) (v : json) : option json :=
  match j with
  | JNull => Some (JObject [(key, v)])
  | JObject fields => Some (JObject (fields_assign key v fields))
  | _ => None
  end.

(** Modelled from the spec: [TPJSONString(j, key)] of tp_utils/JSONUtils.h,
    outside this repository: the string stored under [key], or the empty
    string when [j] has no such member or the member is not a string. *)
Definition TPJSONString (j : json) (key : string) : string :=
  match j with
  | JObject fields =>
      match fields_lookup key fields with
      | Some (JString s) => s
      | _ => EmptyString
      end
  | _ => EmptyString
  end.

(* ===================================================================== *)
(** ** CoreInterfacePayloadPrivate and CoreInterfaceHandle *)

Module CoreInterfacePayloadPrivate.

(** [CoreInterfaceData* data{nullptr};] *)
Record t : Type := mk { data : pointer }.

(** [new CoreInterfacePayloadPrivate] *)
Definition fresh : t := mk nullptr.

End CoreInterfacePayloadPrivate.

(** The free store of [CoreInterfacePayloadPrivate] objects: the address of
    a payload is its index, [new] appends. *)
Abbreviation Memory := (list CoreInterfacePayloadPrivate.t).

Record CoreInterfaceHandle : Type := mkHandle {
  m_payload : pointer;     (* CoreInterfacePayloadPrivate* m_payload{nullptr} *)
  m_typeID  : StringID;
  m_nameID  : StringID
}.

#[global] Instance CoreInterfaceHandle_eq_dec : EqDecision CoreInterfaceHandle.
Proof. solve_decision. Defined.

(** [CoreInterfaceHandle()] *)
Definition CoreInterfaceHandle_default : CoreInterfaceHandle :=
  mkHandle nullptr StringID_default StringID_default.

(** [CoreInterfaceHandle::is] *)
Definition is_ (h : CoreInterfaceHandle) (typeID nameID : StringID) : bool :=
  bool_decide (m_typeID h = typeID) && bool_decide (m_nameID h = nameID).

(** [CoreInterfaceHandle::isValid] *)
Definition isValid (h : CoreInterfaceHandle) : bool :=
  StringID_isValid (m_typeID h) && StringID_isValid (m_nameID h).

(** [CoreInterfaceHandle::typeID] and [CoreInterfaceHandle::nameID] *)
Definition typeID (h : CoreInterfaceHandle) : StringID := m_typeID h.
Definition nameID (h : CoreInterfaceHandle) : StringID := m_nameID h.

(** [CoreInterfaceHandle::operator==] *)
Definition handle_eqb (h other : CoreInterfaceHandle) : bool :=
  bool_decide (m_payload h = m_payload other).

Infix "==" := handle_eqb (at level 70, no associativity).

(** [CoreInterfaceHandle::data]: [m_payload ? m_payload->data : nullptr].
    Dereferencing an address that holds no payload is an invalid access
    ([None]). *)
Definition data (h : CoreInterfaceHandle) (memory : Memory) : option pointer :=
  match m_payload h with
  | nullptr => Some nullptr
  | ptr p => CoreInterfacePayloadPrivate.data <$> memory !! p
  end.

(** [CoreInterfaceHandle::saveState] *)
Definition saveState (h : CoreInterfaceHandle) : option json :=
  j ← json_assign JNull "typeID" (JString (toString (m_typeID h)));
  json_assign j "nameID" (JString (toString (m_nameID h))).

(* ===================================================================== *)
(** ** Listeners and the events of a call *)

(** A listener is a [std::function] object registered by address. *)
Definition Callback : Type := nat.

(** [std::thread::id] *)
Definition thread_id : Type := nat.

(** The arguments a listener is called with. *)
Inductive CallArgs : Type :=
| ChannelListChangedArgs
    (* void() *)
| ChannelChangedArgs (typeID nameID : StringID) (data : pointer)
    (* void(const StringID& typeID, const StringID& nameID, const CoreInterfaceData* data) *)
| SignalArgs (typeID : StringID) (data : pointer).
    (* void(const StringID& typeID, const CoreInterfaceData* data) *)

(** What a call of the registry does to the outside, in program order. *)
Inductive Event : Type :=
| EvDelete (a : nat)                        (* a CoreInterfaceData object is destroyed *)
| EvCall (c : Callback) (args : CallArgs).  (* the listener c is called with args *)

#[global] Instance CallArgs_eq_dec : EqDecision CallArgs.
Proof. solve_decision. Defined.

#[global] Instance Event_eq_dec : EqDecision Event.
Proof. solve_decision. Defined.

(** [delete data;] on a [CoreInterfaceData*]: nothing happens on [nullptr].
    Whether the object is still alive is not checked here: a second delete
    of one object is a second event. *)
Definition delete_ (data : pointer) : list Event :=
  match data with
  | nullptr => []
  | ptr a => [EvDelete a]
  end.

(** Modelled from the spec: tp_utils::CallbackCollection is declared in
    tp_utils/CallbackCollection.h, outside this repository.  It is an
    ordered collection of listeners with register, unregister and an
    invoke-all that calls them in registration order. *)
Abbreviation CallbackCollection := (list Callback).

(** Modelled from the spec: [tpRemoveOne(container, value)] of tp_utils,
    outside this repository: removes the first element matching the given
    reference, if there is one. *)
Fixpoint tpRemoveOne (callbacks : list Callback) (callback : Callback) : list Callback :=
  match callbacks with
  | [] => []
  | c :: rest => if decide (c = callback) then rest else c :: tpRemoveOne rest callback
  end.

Definition addCallback (callback : Callback) (cc : CallbackCollection) : CallbackCollection :=
  cc ++ [callback].

Definition removeCallback (callback : Callback) (cc : CallbackCollection) : CallbackCollection :=
  tpRemoveOne cc callback.

(** the loop over [callbacks] that calls each listener with [args], which is also what the
    call operator of a [CallbackCollection] does. *)
Definition invokeAll (callbacks : list Callback) (args : CallArgs) : list Event :=
  map (fun c => EvCall c args) callbacks.

(* ===================================================================== *)
(** ** CoreInterface *)

(** The payload objects on the free store, and one [CoreInterface] object:
    the members of its [Private] struct ([ownerThread], [channels],
    [signalCallbacks]) and its two public callback collections. *)
Record State : Type := mkState {
  memory : Memory;
  ownerThread : thread_id;
  channels : gmap StringID (gmap StringID CoreInterfaceHandle);
  signalCallbacks : gmap StringID (list Callback);
  channelListChanged : CallbackCollection;
  channelChanged : CallbackCollection
}.

Definition set_memory (m : Memory) (s : State) : State :=
  mkState m (ownerThread s) (channels s) (signalCallbacks s)
          (channelListChanged s) (channelChanged s).

Definition set_channels (ch : gmap StringID (gmap StringID CoreInterfaceHandle))
    (s : State) : State :=
  mkState (memory s) (ownerThread s) ch (signalCallbacks s)
          (channelListChanged s) (channelChanged s).

Definition set_signalCallbacks (sc : gmap StringID (list Callback)) (s : State) : State :=
  mkState (memory s) (ownerThread s) (channels s) sc
          (channelListChanged s) (channelChanged s).

Definition set_channelListChanged (cc : CallbackCollection) (s : State) : State :=
  mkState (memory s) (ownerThread s) (channels s) (signalCallbacks s)
          cc (channelChanged s).

Definition set_channelChanged (cc : CallbackCollection) (s : State) : State :=
  mkState (memory s) (ownerThread s) (channels s) (signalCallbacks s)
          (channelListChanged s) cc.

(** [CoreInterface::CoreInterface()], constructed on [this_thread] while
    the free store holds [mem]. *)
Definition CoreInterface_new (this_thread : thread_id) (mem : Memory) : State :=
  mkState mem this_thread ∅ ∅ [] [].

(** [Private::checkThread]: [assert(ownerThread==std::this_thread::get_id())] *)
Definition checkThread (this_thread : thread_id) (s : State) : bool :=
  bool_decide (ownerThread s = this_thread).

(** The outcome of a call: the returned value, the state it leaves and the
    events it caused, or [None] when the call aborts (a failed thread
    assertion, or a write through a pointer to no object). *)
Abbreviation Result A := (option (A * State * list Event)).

(** The handle stored under [(typeID, nameID)], if any. *)
Definition slot (s : State) (typeID nameID : StringID) : option CoreInterfaceHandle :=
  channels s !! typeID ≫= fun inner => inner !! nameID.

(** [CoreInterface::channels] *)
Definition channels_ (this_thread : thread_id) (s : State)
  : option (gmap StringID (gmap StringID CoreInterfaceHandle)) :=
  if checkThread this_thread s then Some (channels s) else None.

(** [CoreInterface::handle] *)
Definition handle (this_thread : thread_id) (typeID nameID : StringID) (s : State)
  : Result CoreInterfaceHandle :=
  if negb (checkThread this_thread s) then None else
  if negb (StringID_isValid typeID) || negb (StringID_isValid nameID)
  then Some (CoreInterfaceHandle_default, s, [])
  else
    (* CoreInterfaceHandle& localHandle = d->channels[typeID][nameID]; *)
    let inner := default ∅ (channels s !! typeID) in
    let localHandle := default CoreInterfaceHandle_default (inner !! nameID) in
    if negb (is_nonnull (m_payload localHandle)) then
      let localHandle' := mkHandle (ptr (length (memory s))) typeID nameID in
      Some (localHandle',
            set_channels (<[typeID := <[nameID := localHandle']> inner]> (channels s))
              (set_memory (memory s ++ [CoreInterfacePayloadPrivate.fresh]) s),
            invokeAll (channelListChanged s) ChannelListChangedArgs)
    else
      Some (localHandle,
            set_channels (<[typeID := <[nameID := localHandle]> inner]> (channels s)) s,
            []).

(** [CoreInterface::setChannelData] *)
Definition setChannelData (this_thread : thread_id) (h : CoreInterfaceHandle)
    (data : pointer) (s : State) : Result unit :=
  if negb (checkThread this_thread s) then None else
  match m_payload h with
  | nullptr => Some (tt, s, delete_ data)
  | ptr p =>
      (* delete handle.m_payload->data; *)
      match memory s !! p with
      | None => None
      | Some old =>
          (* handle.m_payload->data = data; *)
          let memory' := <[p := CoreInterfacePayloadPrivate.mk data]> (memory s) in
          (* channelChanged(handle.m_typeID, handle.m_nameID, handle.m_payload->data); *)
          match memory' !! p with
          | None => None
          | Some new =>
              Some (tt, set_memory memory' s,
                    delete_ (CoreInterfacePayloadPrivate.data old) ++
                    invokeAll (channelChanged s)
                      (ChannelChangedArgs (m_typeID h) (m_nameID h)
                         (CoreInterfacePayloadPrivate.data new)))
          end
      end
  end.

(** [CoreInterface::registerCallback(const SignalCallback*, const StringID&)] *)
Definition registerCallback (this_thread : thread_id) (callback : Callback)
    (typeID : StringID) (s : State) : Result unit :=
  if negb (checkThread this_thread s) then None else
  let callbacks := default [] (signalCallbacks s !! typeID) in
  Some (tt, set_signalCallbacks (<[typeID := callbacks ++ [callback]]> (signalCallbacks s)) s, []).

(** [CoreInterface::unregisterCallback(const SignalCallback*, const StringID&)] *)
Definition unregisterCallback (this_thread : thread_id) (callback : Callback)
    (typeID : StringID) (s : State) : Result unit :=
  if negb (checkThread this_thread s) then None else
  let callbacks := tpRemoveOne (default [] (signalCallbacks s !! typeID)) callback in
  Some (tt,
        set_signalCallbacks
          (match callbacks with
           | [] => delete typeID (signalCallbacks s)
           | _ => <[typeID := callbacks]> (signalCallbacks s)
           end) s,
        []).

(** [CoreInterface::sendSignal]; [d->signalCallbacks[typeID]] leaves an
    empty vector behind when [typeID] had no entry. *)
Definition sendSignal (this_thread : thread_id) (typeID : StringID)
    (data : pointer) (s : State) : Result unit :=
  if negb (checkThread this_thread s) then None else
  let callbacks := default [] (signalCallbacks s !! typeID) in
  Some (tt, set_signalCallbacks (<[typeID := callbacks]> (signalCallbacks s)) s,
        invokeAll callbacks (SignalArgs typeID data)).

(** [CoreInterfaceHandle::loadState]: the handle it is called on is
    assigned the result, which is returned here. *)
Definition loadState (this_thread : thread_id) (j : json) (s : State)
  : Result CoreInterfaceHandle :=
  handle this_thread
    (StringID_of_string (TPJSONString j "typeID"))
    (StringID_of_string (TPJSONString j "nameID")) s.

(** The listeners a signal of type [typeID] is delivered to. *)
Definition signalListeners (s : State) (typeID : StringID) : list Callback :=
  default [] (signalCallbacks s !! typeID).

(* ===================================================================== *)
(** ** Histories of calls *)

(** One call on the registry by a client. *)
Inductive Op : Type :=
| OpHandle (typeID nameID : StringID)
| OpLoadState (j : json)
| OpSetChannelData (h : CoreInterfaceHandle) (data : pointer)
| OpSendSignal (typeID : StringID) (data : pointer)
| OpRegisterCallback (callback : Callback) (typeID : StringID)
| OpUnregisterCallback (callback : Callback) (typeID : StringID)
| OpChannelListChangedAdd (callback : Callback)
| OpChannelListChangedRemove (callback : Callback)
| OpChannelChangedAdd (callback : Callback)
| OpChannelChangedRemove (callback : Callback).

(** Forget the value a call returns. *)
Definition effect {A : Type} (r : Result A) : option (State * list Event) :=
  match r with
  | Some (_, s, evs) => Some (s, evs)
  | None => None
  end.

Definition step (this_thread : thread_id) (op : Op) (s : State)
  : option (State * list Event) :=
  match op with
  | OpHandle typeID nameID => effect (handle this_thread typeID nameID s)
  | OpLoadState j => effect (loadState this_thread j s)
  | OpSetChannelData h data => effect (setChannelData this_thread h data s)
  | OpSendSignal typeID data => effect (sendSignal this_thread typeID data s)
  | OpRegisterCallback c typeID => effect (registerCallback this_thread c typeID s)
  | OpUnregisterCallback c typeID => effect (unregisterCallback this_thread c typeID s)
  | OpChannelListChangedAdd c =>
      Some (set_channelListChanged (addCallback c (channelListChanged s)) s, [])
  | OpChannelListChangedRemove c =>
      Some (set_channelListChanged (removeCallback c (channelListChanged s)) s, [])
  | OpChannelChangedAdd c =>
      Some (set_channelChanged (addCallback c (channelChanged s)) s, [])
  | OpChannelChangedRemove c =>
      Some (set_channelChanged (removeCallback c (channelChanged s)) s, [])
  end.

(** A sequence of calls, all made on [this_thread]; the events are
    collected in program order. *)
Fixpoint run (this_thread : thread_id) (ops : list Op) (s : State)
  : option (State * list Event) :=
  match ops with
  | [] => Some (s, [])
  | op :: rest =>
      match step this_thread op s with
      | None => None
      | Some (s1, evs1) =>
          match run this_thread rest s1 with
          | None => None
          | Some (s2, evs2) => Some (s2, evs1 ++ evs2)
          end
      end
  end.

(** Does the call ask the registry for the channel [(typeID, nameID)]? *)
Definition requests (typeID nameID : StringID) (op : Op) : bool :=
  match op with
  | OpHandle t n => bool_decide (t = typeID ∧ n = nameID)
  | OpLoadState j =>
      bool_decide (StringID_of_string (TPJSONString j "typeID") = typeID ∧
                   StringID_of_string (TPJSONString j "nameID") = nameID)
  | _ => false
  end.

(** Does the call write the payload at address [p]? *)
Definition writes (p : nat) (op : Op) : bool :=
  match op with
  | OpSetChannelData h _ => bool_decide (m_payload h = ptr p)
  | _ => false
  end.

(** The states a registry constructed on [this_thread] can be in. *)
Definition reachable (this_thread : thread_id) (s : State) : Prop :=
  ∃ mem ops evs, run this_thread ops (CoreInterface_new this_thread mem) = Some (s, evs).

(** A handle a client can hold while the registry is in state [s]: a
    default-constructed one, one returned by [handle] or assigned by
    [loadState], or one obtained earlier and kept (or copied) while the
    registry moved on. *)
Inductive obtainable (this_thread : thread_id) : State → CoreInterfaceHandle → Prop :=
| obtain_default s :
    reachable this_thread s →
    obtainable this_thread s CoreInterfaceHandle_default
| obtain_handle s typeID nameID h s' evs :
    reachable this_thread s →
    handle this_thread typeID nameID s = Some (h, s', evs) →
    obtainable this_thread s' h
| obtain_loadState s j h s' evs :
    reachable this_thread s →
    loadState this_thread j s = Some (h, s', evs) →
    obtainable this_thread s' h
| obtain_kept s h op s' evs :
    obtainable this_thread s h →
    step this_thread op s = Some (s', evs) →
    obtainable this_thread s' h.

(** The handle references a real slot of the registry: its payload is an
    allocated object and the registry holds the handle under its keys. *)
Definition references_slot (s : State) (h : CoreInterfaceHandle) : Prop :=
  ∃ p, m_payload h = ptr p ∧ p < length (memory s) ∧
       slot s (m_typeID h) (m_nameID h) = Some h.

(* ===================================================================== *)
(** ** Notions used in the statements and proofs *)

(** The handle [d->channels[typeID][nameID]] refers to: the stored one, or a
    default-constructed one inserted by [operator[]]. *)
Definition localHandle_of (s : State) (t n : StringID) : CoreInterfaceHandle :=
  default CoreInterfaceHandle_default (default ∅ (channels s !! t) !! n).

(** Every stored handle has an allocated payload of its own and carries
    the valid keys it is stored under. *)
Definition channels_wf (s : State) : Prop :=
  ∀ t n h, slot s t n = Some h →
    ∃ p, m_payload h = ptr p ∧ p < length (memory s) ∧
         m_typeID h = t ∧ m_nameID h = n ∧
         StringID_isValid t = true ∧ StringID_isValid n = true.

(** Two entries of the table never share a payload. *)
Definition channels_inj (s : State) : Prop :=
  ∀ t n h t' n' h', slot s t n = Some h → slot s t' n' = Some h' →
    m_payload h = m_payload h' → t = t' ∧ n = n'.

(** A payload created by [handle] holds no data until it is written. *)
Definition unwritten_at (p : nat) (s : State) : Prop :=
  ∀ t n h, slot s t n = Some h → m_payload h = ptr p →
           memory s !! p = Some CoreInterfacePayloadPrivate.fresh.

(** The listeners of type [t] after a call, from those before it: what
    register and unregister mean for one type, in the words of the
    callback list: register appends, unregister removes the first entry
    with that reference, nothing else touches the list. *)
Definition register_history (t : StringID) (listeners : list Callback) (op : Op)
  : list Callback :=
  match op with
  | OpRegisterCallback c t' => if decide (t' = t) then listeners ++ [c] else listeners
  | OpUnregisterCallback c t' => if decide (t' = t) then tpRemoveOne listeners c else listeners
  | _ => listeners
  end.

(** The listeners registered for [t] by a history of calls on a new
    registry, in registration order. *)
Definition registered (t : StringID) (ops : list Op) : list Callback :=
  fold_left (register_history t) ops [].

(** Two states that differ at most in empty entries of [signalCallbacks]. *)
Definition observably_equal (s1 s2 : State) : Prop :=
  memory s1 = memory s2 ∧ ownerThread s1 = ownerThread s2 ∧
  channels s1 = channels s2 ∧
  channelListChanged s1 = channelListChanged s2 ∧
  channelChanged s1 = channelChanged s2 ∧
  ∀ t, signalListeners s1 t = signalListeners s2 t.

(** Open up a successful call into the branches of its code. *)
Ltac step_inv H :=
  unfold step, effect, loadState, handle, setChannelData, sendSignal,
    registerCallback, unregisterCallback in H;
  repeat case_match; simplify_eq; simpl in *.

(* ===================================================================== *)
(** ** The rest of the interface *)

(** [lessThanCoreInterfaceHandle]: [operator<] on the two name strings,
    which compares them byte by byte as unsigned values, a proper prefix
    being smaller. *)
Definition lessThanCoreInterfaceHandle (lhs rhs : CoreInterfaceHandle) : bool :=
  String.ltb (toString (nameID lhs)) (toString (nameID rhs)).

(** [CoreInterfaceHandle::saveState(nlohmann::json& j)], the form of
    [saveState] that writes the two members into a document of the
    caller. *)
Definition saveState_into (h : CoreInterfaceHandle) (j : json) : option json :=
  j1 ← json_assign j "typeID" (JString (toString (m_typeID h)));
  json_assign j1 "nameID" (JString (toString (m_nameID h))).

(** [CoreInterface::registerCallback(const ChannelListChangedCallback* )] and
    [CoreInterface::unregisterCallback(const ChannelListChangedCallback* )],
    where the listeners are kept in a vector of the registry. *)
Definition registerCallback_ChannelListChanged (this_thread : thread_id)
    (callback : Callback) (s : State) : Result unit :=
  if negb (checkThread this_thread s) then None else
  Some (tt, set_channelListChanged (channelListChanged s ++ [callback]) s, []).

Definition unregisterCallback_ChannelListChanged (this_thread : thread_id)
    (callback : Callback) (s : State) : Result unit :=
  if negb (checkThread this_thread s) then None else
  Some (tt, set_channelListChanged (tpRemoveOne (channelListChanged s) callback) s, []).

(** [CoreInterface::registerCallback(const ChannelChangedCallback* )] and
    [CoreInterface::unregisterCallback(const ChannelChangedCallback* )] *)
Definition registerCallback_ChannelChanged (this_thread : thread_id)
    (callback : Callback) (s : State) : Result unit :=
  if negb (checkThread this_thread s) then None else
  Some (tt, set_channelChanged (channelChanged s ++ [callback]) s, []).

Definition unregisterCallback_ChannelChanged (this_thread : thread_id)
    (callback : Callback) (s : State) : Result unit :=
  if negb (checkThread this_thread s) then None else
  Some (tt, set_channelChanged (tpRemoveOne (channelChanged s) callback) s, []).

(** The handles of the channel table as the two nested loops of
    [Private::~Private] visit them.  An [unordered_map] promises no
    particular order; the order of the map of the model stands for it, and
    nothing proved below depends on it. *)
Definition stored_handles (s : State) : list CoreInterfaceHandle :=
  map_to_list (channels s) ≫= fun i => snd <$> map_to_list (snd i).

(** The loop body [delete j.second.m_payload;], handle after handle:
    deleting a payload runs [~CoreInterfacePayloadPrivate], which deletes
    the data it holds.  [freed] are the payloads deleted so far; deleting
    one of them again, or an address that holds no payload, is an invalid
    access ([None]).  The result lists the payloads freed, in order, and the
    events. *)
Fixpoint delete_payloads (mem : Memory) (freed : list nat)
    (handles : list CoreInterfaceHandle) : option (list nat * list Event) :=
  match handles with
  | [] => Some (freed, [])
  | h :: rest =>
      match m_payload h with
      | nullptr => delete_payloads mem freed rest
      | ptr a =>
          if decide (a ∈ freed) then None else
          match mem !! a with
          | None => None
          | Some pl =>
              match delete_payloads mem (freed ++ [a]) rest with
              | None => None
              | Some (freed', evs) =>
                  Some (freed', delete_ (CoreInterfacePayloadPrivate.data pl) ++ evs)
              end
          end
      end
  end.

(** [CoreInterface::~CoreInterface]: the thread assertion, then [delete d],
    which runs [Private::~Private]. *)
Definition CoreInterface_destructor (this_thread : thread_id) (s : State)
  : option (list nat * list Event) :=
  if negb (checkThread this_thread s) then None else
  delete_payloads (memory s) [] (stored_handles s).

(** The data objects an event list destroys, in order. *)
Definition deleted (evs : list Event) : list nat :=
  evs ≫= fun e => match e with EvDelete a => [a] | EvCall _ _ => [] end.

(** The data object behind a pointer, if any. *)
Definition pointee (p : pointer) : list nat :=
  match p with nullptr => [] | ptr a => [a] end.

(** The data objects the payloads of a memory hold. *)
Definition held (mem : Memory) : list nat :=
  mem ≫= fun pl => pointee (CoreInterfacePayloadPrivate.data pl).

(** The data objects a history hands over to [setChannelData]. *)
Definition handed_over (ops : list Op) : list nat :=
  ops ≫= fun op => match op with OpSetChannelData _ d => pointee d | _ => [] end.

(** The payload addresses a list of handles points at. *)
Definition payload_addrs (handles : list CoreInterfaceHandle) : list nat :=
  handles ≫= fun h => pointee (m_payload h).

(** The data object held by the payload at address [a]. *)
Definition data_at (mem : Memory) (a : nat) : list nat :=
  match mem !! a with
  | Some pl => pointee (CoreInterfacePayloadPrivate.data pl)
  | None => []
  end.

(** The listeners called with the channel-list-changed notification in an
    event list, in order. *)
Definition channelListChanged_calls (evs : list Event) : list Callback :=
  evs ≫= fun e => match e with EvCall c ChannelListChangedArgs => [c] | _ => [] end.

(** Does the call register or unregister a channel-list-changed listener? *)
Definition touches_channelListChanged (op : Op) : bool :=
  match op with
  | OpChannelListChangedAdd _ | OpChannelListChangedRemove _ => true
  | _ => false
  end.

(** No type has an empty listener vector in the table. *)
Definition no_empty_entry (s : State) : Prop :=
  ∀ t, signalCallbacks s !! t ≠ Some [].

(** Is the call a [sendSignal]? *)
Definition is_sendSignal (op : Op) : bool :=
  match op with OpSendSignal _ _ => true | _ => false end.

(* ===================================================================== *)
(** ** Small worked examples *)

Definition Float : StringID := mkStringID "Float".
Definition Opacity : StringID := mkStringID "Opacity".
Definition Save : StringID := mkStringID "Save".

(** A registry with the one channel ("Float", "Opacity"), and one that also
    has ("Float", "Save"). *)
Definition one_channel : State :=
  mkState [CoreInterfacePayloadPrivate.fresh] 0
    {[ Float := {[ Opacity := mkHandle (ptr 0) Float Opacity ]} ]} ∅ [] [].

Definition two_channels : State :=
  mkState [CoreInterfacePayloadPrivate.fresh; CoreInterfacePayloadPrivate.fresh] 0
    (<[Float := <[Save := mkHandle (ptr 1) Float Save]>
                   {[ Opacity := mkHandle (ptr 0) Float Opacity ]}]>
       {[ Float := {[ Opacity := mkHandle (ptr 0) Float Opacity ]} ]}) ∅ [] [].

Example handle_twice_example :
  run 0 [OpChannelListChangedAdd 11; OpHandle Float Opacity; OpHandle Float Opacity]
        (CoreInterface_new 0 [])
  = Some (mkState [CoreInterfacePayloadPrivate.fresh] 0
            {[ Float := {[ Opacity := mkHandle (ptr 0) Float Opacity ]} ]} ∅ [11] [],
          [EvCall 11 ChannelListChangedArgs]).
Proof. vm_compute. reflexivity. Qed.

Example write_twice_example :
  run 0 [OpChannelChangedAdd 21; OpHandle Float Opacity;
         OpSetChannelData (mkHandle (ptr 0) Float Opacity) (ptr 5);
         OpSetChannelData (mkHandle (ptr 0) Float Opacity) (ptr 8)]
        (CoreInterface_new 0 [])
  = Some (mkState [CoreInterfacePayloadPrivate.mk (ptr 8)] 0
            {[ Float := {[ Opacity := mkHandle (ptr 0) Float Opacity ]} ]} ∅ [] [21],
          [EvCall 21 (ChannelChangedArgs Float Opacity (ptr 5));
           EvDelete 5;
           EvCall 21 (ChannelChangedArgs Float Opacity (ptr 8))]).
Proof. vm_compute. reflexivity. Qed.

Example signal_example :
  run 0 [OpRegisterCallback 31 Save; OpRegisterCallback 32 Save;
         OpRegisterCallback 33 Float; OpSendSignal Save nullptr;
         OpUnregisterCallback 31 Save; OpSendSignal Save (ptr 7)]
        (CoreInterface_new 0 [])
  = Some (mkState [] 0 ∅ {[ Save := [32]; Float := [33] ]} [] [],
          [EvCall 31 (SignalArgs Save nullptr); EvCall 32 (SignalArgs Save nullptr);
           EvCall 32 (SignalArgs Save (ptr 7))]).
Proof. vm_compute. reflexivity. Qed.

Example load_saved_binding_example :
  (j ← saveState (mkHandle (ptr 3) Float Opacity);
   loadState 0 j (set_channelListChanged [11] (CoreInterface_new 0 [])))
  = Some (mkHandle (ptr 0) Float Opacity,
          mkState [CoreInterfacePayloadPrivate.fresh] 0
            {[ Float := {[ Opacity := mkHandle (ptr 0) Float Opacity ]} ]} ∅ [11] [],
          [EvCall 11 ChannelListChangedArgs]).
Proof. vm_compute. reflexivity. Qed.

Example wrong_thread_example :
  handle 1 Float Opacity (CoreInterface_new 0 []) = None.
Proof. reflexivity. Qed.

(* ===================================================================== *)
(** ** Basic facts about the state *)

Lemma checkThread_owner tid s : checkThread tid s = true ↔ ownerThread s = tid.
Proof. unfold checkThread. apply bool_decide_eq_true. Qed.

Lemma set_channels_same s : set_channels (channels s) s = s.
Proof. by destruct s. Qed.

Lemma slot_Some s t n h :
  slot s t n = Some h ↔ ∃ inner, channels s !! t = Some inner ∧ inner !! n = Some h.
Proof.
  unfold slot. destruct (channels s !! t) as [inner|]; simpl.
  - split; [intros H; by exists inner | intros (i & [= ->] & H); done].
  - split; [done | intros (i & [=] & _)].
Qed.

Lemma localHandle_of_slot s t n :
  localHandle_of s t n = default CoreInterfaceHandle_default (slot s t n).
Proof.
  unfold localHandle_of, slot. destruct (channels s !! t); simpl; [done|].
  by rewrite lookup_empty.
Qed.

Lemma slot_set_channels_eq s0 s t n h :
  slot (set_channels (<[t := <[n := h]> (default ∅ (channels s !! t))]> (channels s)) s0) t n
  = Some h.
Proof. unfold slot; simpl. rewrite lookup_insert_eq; simpl. by rewrite lookup_insert_eq. Qed.

Lemma slot_set_channels_ne s0 s t n h t' n' :
  (t, n) ≠ (t', n') →
  slot (set_channels (<[t := <[n := h]> (default ∅ (channels s !! t))]> (channels s)) s0) t' n'
  = slot s t' n'.
Proof.
  intros Hne. unfold slot; simpl.
  destruct (decide (t = t')) as [->|Ht].
  - rewrite lookup_insert_eq; simpl.
    rewrite lookup_insert_ne by congruence.
    destruct (channels s !! t'); simpl; [done | by rewrite lookup_empty].
  - by rewrite lookup_insert_ne.
Qed.

Lemma slot_set_memory m s t n : slot (set_memory m s) t n = slot s t n.
Proof. done. Qed.

(** The three ways a call of [handle] can end. *)
Lemma handle_cases tid t n s :
  checkThread tid s = true →
  (StringID_isValid t && StringID_isValid n = false ∧
     handle tid t n s = Some (CoreInterfaceHandle_default, s, []))
  ∨ (StringID_isValid t && StringID_isValid n = true ∧
     is_nonnull (m_payload (localHandle_of s t n)) = true ∧
     slot s t n = Some (localHandle_of s t n) ∧
     handle tid t n s = Some (localHandle_of s t n, s, []))
  ∨ (StringID_isValid t && StringID_isValid n = true ∧
     m_payload (localHandle_of s t n) = nullptr ∧
     handle tid t n s =
       Some (mkHandle (ptr (length (memory s))) t n,
             set_channels
               (<[t := <[n := mkHandle (ptr (length (memory s))) t n]>
                          (default ∅ (channels s !! t))]> (channels s))
               (set_memory (memory s ++ [CoreInterfacePayloadPrivate.fresh]) s),
             invokeAll (channelListChanged s) ChannelListChangedArgs)).
Proof.
  intros Hth. unfold handle. rewrite Hth; simpl.
  destruct (StringID_isValid t); simpl; [|by left].
  destruct (StringID_isValid n); simpl; [|by left].
  right. fold (localHandle_of s t n).
  destruct (m_payload (localHandle_of s t n)) as [|p] eqn:Hp; simpl.
  - right. done.
  - left. split; [done|]. split; [done|].
    assert (Hslot : slot s t n = Some (localHandle_of s t n)).
    { rewrite localHandle_of_slot in Hp |- *.
      destruct (slot s t n) as [h|]; simpl in *; [done | discriminate]. }
    split; [done|].
    apply slot_Some in Hslot as (inner & Hi & Hn).
    rewrite Hi; simpl.
    rewrite (insert_id inner n) by done.
    rewrite (insert_id (channels s) t) by done.
    by rewrite set_channels_same.
Qed.

Lemma handle_aborts tid t n s :
  checkThread tid s = false → handle tid t n s = None.
Proof. intros H. unfold handle. by rewrite H. Qed.

Lemma handle_Some_thread tid t n s r :
  handle tid t n s = Some r → checkThread tid s = true.
Proof.
  destruct (checkThread tid s) eqn:H; [done|].
  by rewrite handle_aborts.
Qed.

(* ===================================================================== *)
(** ** What a call preserves *)

Lemma step_ownerThread tid op s s' evs :
  step tid op s = Some (s', evs) → ownerThread s' = ownerThread s.
Proof. intros H. destruct op; step_inv H; done. Qed.

Lemma step_checkThread tid op s s' evs :
  step tid op s = Some (s', evs) → checkThread tid s' = checkThread tid s.
Proof. intros H. unfold checkThread. by rewrite (step_ownerThread _ _ _ _ _ H). Qed.

Lemma step_memory_length tid op s s' evs :
  step tid op s = Some (s', evs) → length (memory s) ≤ length (memory s').
Proof.
  intros H. destruct op; step_inv H;
    rewrite ?length_app, ?length_insert; simpl; lia.
Qed.

(** A stored handle with a payload is never replaced. *)
Lemma step_slot_stable tid op s s' evs t n h :
  slot s t n = Some h → is_nonnull (m_payload h) = true →
  step tid op s = Some (s', evs) → slot s' t n = Some h.
Proof.
  intros Hslot Hnn H.
  assert (Hstable : ∀ t0 n0 h0 s1 e1,
             handle tid t0 n0 s = Some (h0, s1, e1) → slot s1 t n = Some h).
  { intros t0 n0 h0 s1 e1 Hh.
    pose proof (handle_Some_thread _ _ _ _ _ Hh) as Hth.
    destruct (handle_cases tid t0 n0 s Hth) as [[_ He]|[(_ & _ & _ & He)|(_ & Hnull & He)]];
      rewrite He in Hh; simplify_eq; try done.
    destruct (decide ((t0, n0) = (t, n))) as [[= -> ->]|Hne].
    - rewrite localHandle_of_slot, Hslot in Hnull. simpl in Hnull.
      rewrite Hnull in Hnn. discriminate.
    - rewrite slot_set_channels_ne by done. done. }
  destruct op; simpl in H; unfold loadState in H;
    try (destruct (handle _ _ _ _) as [[[h0 s1] e1]|] eqn:Hh; simpl in H; simplify_eq;
         by eapply Hstable);
    step_inv H; done.
Qed.

(** A call that does not ask for [(t, n)] leaves its entry as it is. *)
Lemma step_slot_unrequested tid op s s' evs t n :
  requests t n op = false →
  step tid op s = Some (s', evs) → slot s' t n = slot s t n.
Proof.
  intros Hreq H.
  assert (Hunreq : ∀ t0 n0 h0 s1 e1,
             ¬ (t0 = t ∧ n0 = n) →
             handle tid t0 n0 s = Some (h0, s1, e1) → slot s1 t n = slot s t n).
  { intros t0 n0 h0 s1 e1 Hne Hh.
    pose proof (handle_Some_thread _ _ _ _ _ Hh) as Hth.
    destruct (handle_cases tid t0 n0 s Hth) as [[_ He]|[(_ & _ & _ & He)|(_ & Hnull & He)]];
      rewrite He in Hh; simplify_eq; try done.
    rewrite slot_set_channels_ne; [done|]. intros [= -> ->]. by apply Hne. }
  destruct op; simpl in Hreq, H; unfold loadState in H;
    try (apply bool_decide_eq_false in Hreq;
         destruct (handle _ _ _ _) as [[[h0 s1] e1]|] eqn:Hh; simpl in H; simplify_eq;
         by eapply Hunreq);
    step_inv H; done.
Qed.

(** Only [setChannelData] through a handle on the payload at [p] changes
    what that payload holds. *)
Lemma step_memory_unwritten tid op s s' evs p pl :
  writes p op = false →
  memory s !! p = Some pl →
  step tid op s = Some (s', evs) → memory s' !! p = Some pl.
Proof.
  intros Hw Hp H. destruct op; simpl in Hw; step_inv H;
    try done; try (by apply lookup_app_l_Some).
  apply bool_decide_eq_false in Hw.
  rewrite list_lookup_insert_ne; [done|]. congruence.
Qed.

(** [setChannelData] changes the payload store only. *)
Lemma step_memory_only tid h d s s' evs :
  effect (setChannelData tid h d s) = Some (s', evs) →
  channels s' = channels s ∧ signalCallbacks s' = signalCallbacks s ∧
  channelListChanged s' = channelListChanged s ∧ channelChanged s' = channelChanged s.
Proof. intros H. step_inv H; done. Qed.

Lemma step_requested tid op s t n :
  requests t n op = true → step tid op s = effect (handle tid t n s).
Proof.
  destruct op; simpl; try discriminate; intros H;
    apply bool_decide_eq_true in H as [<- <-]; done.
Qed.

(* ===================================================================== *)
(** ** Histories *)

Lemma run_app tid ops1 ops2 s :
  run tid (ops1 ++ ops2) s =
  match run tid ops1 s with
  | None => None
  | Some (s1, e1) =>
      match run tid ops2 s1 with
      | None => None
      | Some (s2, e2) => Some (s2, e1 ++ e2)
      end
  end.
Proof.
  revert s. induction ops1 as [|op ops1 IH]; intros s; simpl.
  - by destruct (run tid ops2 s) as [[s2 e2]|].
  - destruct (step tid op s) as [[s1 e1]|]; [|done].
    rewrite IH. destruct (run tid ops1 s1) as [[s2 e2]|]; [|done].
    destruct (run tid ops2 s2) as [[s3 e3]|]; [|done].
    by rewrite app_assoc.
Qed.

(** A property kept by every call is kept by every history. *)
Lemma run_preserves (P : State → Prop) tid :
  (∀ op s s' evs, P s → step tid op s = Some (s', evs) → P s') →
  ∀ ops s s' evs, P s → run tid ops s = Some (s', evs) → P s'.
Proof.
  intros Hstep ops. induction ops as [|op ops IH]; intros s s' evs HP H; simpl in H.
  - by simplify_eq.
  - destruct (step tid op s) as [[s1 e1]|] eqn:H1; [|done].
    destruct (run tid ops s1) as [[s2 e2]|] eqn:H2; [|done].
    simplify_eq. eapply IH; [|done]. by eapply Hstep.
Qed.

Lemma run_checkThread tid ops s s' evs :
  run tid ops s = Some (s', evs) → checkThread tid s' = checkThread tid s.
Proof.
  intros H.
  eapply (run_preserves (fun x => checkThread tid x = checkThread tid s)); [|done|done].
  intros op s0 s1 e1 H0 H1. by rewrite (step_checkThread _ _ _ _ _ H1).
Qed.

Lemma run_memory_length tid ops s s' evs :
  run tid ops s = Some (s', evs) → length (memory s) ≤ length (memory s').
Proof.
  intros H.
  eapply (run_preserves (fun x => length (memory s) ≤ length (memory x))); [|done|done].
  intros op s0 s1 e1 H0 H1. pose proof (step_memory_length _ _ _ _ _ H1). lia.
Qed.

Lemma run_slot_stable tid ops s s' evs t n h :
  slot s t n = Some h → is_nonnull (m_payload h) = true →
  run tid ops s = Some (s', evs) → slot s' t n = Some h.
Proof.
  intros Hslot Hnn H.
  eapply (run_preserves (fun x => slot x t n = Some h)); [|done|done].
  intros op s0 s1 e1 H0 H1. by eapply step_slot_stable.
Qed.

Lemma run_slot_unrequested tid ops s s' evs t n :
  Forall (fun op => requests t n op = false) ops →
  run tid ops s = Some (s', evs) → slot s' t n = slot s t n.
Proof.
  revert s s' evs. induction ops as [|op ops IH]; intros s s' evs Hall H; simpl in H.
  - by simplify_eq.
  - apply Forall_cons in Hall as [Hop Hall].
    destruct (step tid op s) as [[s1 e1]|] eqn:H1; [|done].
    destruct (run tid ops s1) as [[s2 e2]|] eqn:H2; [|done].
    simplify_eq. rewrite (IH _ _ _ Hall H2). by eapply step_slot_unrequested.
Qed.

Lemma run_memory_unwritten tid ops s s' evs p pl :
  Forall (fun op => writes p op = false) ops →
  memory s !! p = Some pl →
  run tid ops s = Some (s', evs) → memory s' !! p = Some pl.
Proof.
  revert s s' evs. induction ops as [|op ops IH]; intros s s' evs Hall Hp H; simpl in H.
  - by simplify_eq.
  - apply Forall_cons in Hall as [Hop Hall].
    destruct (step tid op s) as [[s1 e1]|] eqn:H1; [|done].
    destruct (run tid ops s1) as [[s2 e2]|] eqn:H2; [|done].
    simplify_eq. eapply IH; [done| |done]. by eapply step_memory_unwritten.
Qed.

(* ===================================================================== *)
(** ** The invariant of the channel table *)

Lemma new_wf tid mem : channels_wf (CoreInterface_new tid mem).
Proof. intros t n h H. unfold slot in H. simpl in H. by rewrite lookup_empty in H. Qed.

Lemma new_inj tid mem : channels_inj (CoreInterface_new tid mem).
Proof. intros t n h t' n' h' H. unfold slot in H. simpl in H. by rewrite lookup_empty in H. Qed.

Lemma step_wf tid op s s' evs :
  channels_wf s → step tid op s = Some (s', evs) → channels_wf s'.
Proof.
  intros Hwf H t n h Hslot.
  pose proof (step_memory_length _ _ _ _ _ H) as Hlen.
  destruct (requests t n op) eqn:Hreq.
  - rewrite (step_requested _ _ _ _ _ Hreq) in H.
    destruct (handle tid t n s) as [[[h0 s1] e1]|] eqn:Hh; simpl in H; [|done].
    simplify_eq.
    pose proof (handle_Some_thread _ _ _ _ _ Hh) as Hth.
    destruct (handle_cases tid t n s Hth) as [[_ He]|[(_ & _ & _ & He)|(Hv & Hnull & He)]];
      rewrite He in Hh; simplify_eq.
    + destruct (Hwf _ _ _ Hslot) as (p & Hp & Hlt & Hkeys).
      exists p. split; [done|]. split; [lia|done].
    + destruct (Hwf _ _ _ Hslot) as (p & Hp & Hlt & Hkeys).
      exists p. split; [done|]. split; [lia|done].
    + rewrite slot_set_channels_eq in Hslot. simplify_eq.
      apply andb_true_iff in Hv as [Ht Hn].
      exists (length (memory s)). simpl. rewrite length_app. simpl.
      repeat split; try done. lia.
  - rewrite (step_slot_unrequested _ _ _ _ _ _ _ Hreq H) in Hslot.
    destruct (Hwf _ _ _ Hslot) as (p & Hp & Hlt & Hkeys).
    exists p. split; [done|]. split; [lia|done].
Qed.

Lemma run_wf tid ops s s' evs :
  channels_wf s → run tid ops s = Some (s', evs) → channels_wf s'.
Proof. apply (run_preserves channels_wf). intros. by eapply step_wf. Qed.

Lemma reachable_wf tid s : reachable tid s → channels_wf s.
Proof. intros (mem & ops & evs & H). eapply run_wf; [apply new_wf | done]. Qed.

Lemma reachable_checkThread tid s : reachable tid s → checkThread tid s = true.
Proof.
  intros (mem & ops & evs & H). rewrite (run_checkThread _ _ _ _ _ H).
  by apply bool_decide_eq_true.
Qed.

Lemma reachable_step tid op s s' evs :
  reachable tid s → step tid op s = Some (s', evs) → reachable tid s'.
Proof.
  intros (mem & ops & e0 & H) Hs. exists mem, (ops ++ [op]), (e0 ++ (evs ++ [])).
  rewrite run_app, H. simpl. by rewrite Hs.
Qed.

(** What a call that asks for [(t, n)] does to the table: nothing, or one
    new entry whose payload is the next free address. *)
Lemma step_requested_cases tid op s s' evs t n :
  requests t n op = true → step tid op s = Some (s', evs) →
  s' = s ∨
  (slot s' t n = Some (mkHandle (ptr (length (memory s))) t n) ∧
   ∀ t' n', (t, n) ≠ (t', n') → slot s' t' n' = slot s t' n').
Proof.
  intros Hreq H. rewrite (step_requested _ _ _ _ _ Hreq) in H.
  destruct (handle tid t n s) as [[[h0 s1] e1]|] eqn:Hh; simpl in H; [|done].
  simplify_eq.
  pose proof (handle_Some_thread _ _ _ _ _ Hh) as Hth.
  destruct (handle_cases tid t n s Hth) as [[_ He]|[(_ & _ & _ & He)|(Hv & Hnull & He)]];
    rewrite He in Hh; simplify_eq; [by left | by left |].
  right. split; [apply slot_set_channels_eq|].
  intros t' n' Hne. by apply slot_set_channels_ne.
Qed.

Lemma step_inj tid op s s' evs :
  channels_wf s → channels_inj s → step tid op s = Some (s', evs) → channels_inj s'.
Proof.
  intros Hwf Hinj H t n h t' n' h' H1 H2 Heq.
  destruct (decide ((t, n) = (t', n'))) as [[= -> ->]|Hne]; [done|]. exfalso.
  assert (Hfresh : ∀ t1 n1 h1 t2 n2 h2,
             requests t1 n1 op = true → (t1, n1) ≠ (t2, n2) →
             slot s' t1 n1 = Some h1 → slot s' t2 n2 = Some h2 →
             m_payload h1 = m_payload h2 → False).
  { intros t1 n1 h1 t2 n2 h2 Hreq Hne12 Hs1 Hs2 Hpay.
    destruct (step_requested_cases _ _ _ _ _ _ _ Hreq H) as [->|[Hnew Hold]].
    - destruct (Hinj _ _ _ _ _ _ Hs1 Hs2 Hpay) as [-> ->]. by apply Hne12.
    - rewrite Hnew in Hs1. simplify_eq. rewrite (Hold _ _ Hne12) in Hs2.
      destruct (Hwf _ _ _ Hs2) as (p & Hp & Hlt & _).
      simpl in Hpay. rewrite Hp in Hpay. simplify_eq. lia. }
  destruct (requests t n op) eqn:Hr1.
  { by eapply (Hfresh t n h t' n' h'). }
  destruct (requests t' n' op) eqn:Hr2.
  { by eapply (Hfresh t' n' h' t n h). }
  rewrite (step_slot_unrequested _ _ _ _ _ _ _ Hr1 H) in H1.
  rewrite (step_slot_unrequested _ _ _ _ _ _ _ Hr2 H) in H2.
  destruct (Hinj _ _ _ _ _ _ H1 H2 Heq) as [-> ->]. by apply Hne.
Qed.

Lemma reachable_inj tid s : reachable tid s → channels_inj s.
Proof.
  intros (mem & ops & evs & H).
  cut (channels_wf s ∧ channels_inj s); [tauto|].
  eapply (run_preserves (fun x => channels_wf x ∧ channels_inj x)); [| |done].
  - intros op s0 s1 e1 [Hw Hi] Hs. split; [by eapply step_wf | by eapply step_inj].
  - split; [apply new_wf | apply new_inj].
Qed.

(** A handle a client can hold is either the default-constructed one or
    the stored handle of a slot of the registry. *)
Lemma obtainable_cases tid s h :
  obtainable tid s h →
  reachable tid s ∧
  (h = CoreInterfaceHandle_default ∨
   (references_slot s h ∧ StringID_isValid (m_typeID h) = true ∧
    StringID_isValid (m_nameID h) = true)).
Proof.
  assert (Hstored : ∀ s0 t n h0, channels_wf s0 → slot s0 t n = Some h0 →
            references_slot s0 h0 ∧ StringID_isValid (m_typeID h0) = true ∧
            StringID_isValid (m_nameID h0) = true).
  { intros s0 t n h0 Hwf Hslot.
    destruct (Hwf _ _ _ Hslot) as (p & Hp & Hlt & Ht & Hn & Hvt & Hvn).
    subst t n. split; [|done]. by exists p. }
  assert (Hhandle : ∀ s0 t n h0 s1 e1, reachable tid s0 →
            handle tid t n s0 = Some (h0, s1, e1) →
            reachable tid s1 ∧
            (h0 = CoreInterfaceHandle_default ∨
             (references_slot s1 h0 ∧ StringID_isValid (m_typeID h0) = true ∧
              StringID_isValid (m_nameID h0) = true))).
  { intros s0 t n h0 s1 e1 Hreach Hh.
    assert (Hreach1 : reachable tid s1).
    { apply (reachable_step tid (OpHandle t n) s0 s1 e1 Hreach). simpl. by rewrite Hh. }
    split; [done|].
    pose proof (handle_Some_thread _ _ _ _ _ Hh) as Hth.
    destruct (handle_cases tid t n s0 Hth) as [[_ He]|[(_ & _ & Hs & He)|(Hv & Hnull & He)]];
      rewrite He in Hh; simplify_eq.
    - by left.
    - right. eapply Hstored; [by apply (reachable_wf tid) | done].
    - right. eapply (Hstored _ t n); [by apply (reachable_wf tid)|].
      apply slot_set_channels_eq. }
  induction 1 as [s Hr | s t n h s' evs Hr Hh | s j h s' evs Hr Hh | s h op s' evs Hob IH Hs].
  - split; [done | by left].
  - by eapply Hhandle.
  - by eapply Hhandle.
  - destruct IH as [Hr [->|(Href & Hvt & Hvn)]].
    + split; [by eapply reachable_step | by left].
    + split; [by eapply reachable_step|]. right. split; [|done].
      destruct Href as (p & Hp & Hlt & Hslot). exists p. split; [done|].
      pose proof (step_memory_length _ _ _ _ _ Hs). split; [lia|].
      eapply step_slot_stable; [done| |done]. by rewrite Hp.
Qed.

(* ===================================================================== *)
(** ** Handle allocation *)

(** Before the first request for [(t, n)] the registry has no entry for it. *)
Lemma slot_before_first_request tid mem ops s evs t n :
  run tid ops (CoreInterface_new tid mem) = Some (s, evs) →
  Forall (fun op => requests t n op = false) ops →
  slot s t n = None.
Proof.
  intros H Hall. rewrite (run_slot_unrequested _ _ _ _ _ _ _ Hall H).
  unfold slot. simpl. by rewrite lookup_empty.
Qed.

(** A request for a pair that has no entry creates the slot. *)
Lemma handle_creates tid t n s :
  checkThread tid s = true →
  StringID_isValid t = true → StringID_isValid n = true →
  slot s t n = None →
  ∃ s1,
    handle tid t n s =
      Some (mkHandle (ptr (length (memory s))) t n, s1,
            invokeAll (channelListChanged s) ChannelListChangedArgs) ∧
    memory s1 = memory s ++ [CoreInterfacePayloadPrivate.fresh] ∧
    slot s1 t n = Some (mkHandle (ptr (length (memory s))) t n).
Proof.
  intros Hth Ht Hn Hslot.
  destruct (handle_cases tid t n s Hth) as [[Hv _]|[(_ & _ & Hs & _)|(_ & _ & He)]].
  - rewrite Ht, Hn in Hv. discriminate.
  - rewrite Hslot in Hs. discriminate.
  - eexists. split; [exact He|]. split; [done|]. apply slot_set_channels_eq.
Qed.

(** A request for a pair whose slot exists returns the stored handle and
    does nothing else. *)
Lemma handle_existing tid t n s h :
  checkThread tid s = true →
  StringID_isValid t = true → StringID_isValid n = true →
  slot s t n = Some h → is_nonnull (m_payload h) = true →
  handle tid t n s = Some (h, s, []).
Proof.
  intros Hth Ht Hn Hslot Hnn.
  assert (Hl : localHandle_of s t n = h) by (by rewrite localHandle_of_slot, Hslot).
  destruct (handle_cases tid t n s Hth) as [[Hv _]|[(_ & _ & _ & He)|(_ & Hnull & _)]].
  - rewrite Ht, Hn in Hv. discriminate.
  - by rewrite Hl in He.
  - rewrite Hl in Hnull. rewrite Hnull in Hnn. discriminate.
Qed.

(** C1. In every registry, for valid keys [(t, n)]: the first call of
    [handle(t, n)] creates the slot (one new payload object) and calls
    every channel-list-changed listener once, in registration order,
    before it returns; every later call, whatever the registry was used
    for in between, returns a handle that compares equal to the first,
    creates nothing (the state is left as it was) and calls no listener. *)
Theorem handle_creates_one_slot tid mem ops1 s evs0 t n :
  StringID_isValid t = true → StringID_isValid n = true →
  run tid ops1 (CoreInterface_new tid mem) = Some (s, evs0) →
  Forall (fun op => requests t n op = false) ops1 →
  ∃ h1 s1,
    handle tid t n s =
      Some (h1, s1, map (fun c => EvCall c ChannelListChangedArgs) (channelListChanged s)) ∧
    m_payload h1 = ptr (length (memory s)) ∧
    memory s1 = memory s ++ [CoreInterfacePayloadPrivate.fresh] ∧
    ∀ ops2 s2 evs2,
      run tid ops2 s1 = Some (s2, evs2) →
      ∃ h2, handle tid t n s2 = Some (h2, s2, []) ∧ (h2 == h1) = true.
Proof.
  intros Ht Hn Hrun Hall.
  assert (Hth : checkThread tid s = true).
  { apply (reachable_checkThread tid). by exists mem, ops1, evs0. }
  pose proof (slot_before_first_request _ _ _ _ _ _ _ Hrun Hall) as Hnone.
  destruct (handle_creates tid t n s Hth Ht Hn Hnone) as (s1 & Hh & Hmem & Hslot).
  exists (mkHandle (ptr (length (memory s))) t n), s1.
  split; [exact Hh|]. split; [done|]. split; [done|].
  intros ops2 s2 evs2 Hrun2.
  exists (mkHandle (ptr (length (memory s))) t n). split.
  - apply handle_existing; try done.
    + rewrite (run_checkThread _ _ _ _ _ Hrun2).
      pose proof (step_checkThread tid (OpHandle t n) s s1) as Hc. simpl in Hc.
      rewrite Hh in Hc. simpl in Hc. by rewrite (Hc _ eq_refl).
    + by eapply run_slot_stable.
  - by apply bool_decide_eq_true.
Qed.

Lemma handle_creates_one_slot_witness :
  ∃ h1 s1,
    handle 0 Float Opacity (mkState [] 0 ∅ ∅ [11; 12] [])
    = Some (h1, s1, map (fun c => EvCall c ChannelListChangedArgs) [11; 12]) ∧
    m_payload h1 = ptr 0 ∧
    memory s1 = [] ++ [CoreInterfacePayloadPrivate.fresh] ∧
    ∀ ops2 s2 evs2,
      run 0 ops2 s1 = Some (s2, evs2) →
      ∃ h2, handle 0 Float Opacity s2 = Some (h2, s2, []) ∧ (h2 == h1) = true.
Proof.
  apply (handle_creates_one_slot 0 []
           [OpChannelListChangedAdd 11; OpChannelListChangedAdd 12]
           (mkState [] 0 ∅ ∅ [11; 12] []) [] Float Opacity);
    [reflexivity | reflexivity | reflexivity | repeat constructor].
Defined.

(** C5. A call of [handle] with an invalid type key or an invalid name key
    returns a handle that is not valid (the default-constructed one, which
    points at no slot), leaves the whole state as it was, so [channels()]
    has the same size and contents, and calls no listener. *)
Theorem handle_invalid_key tid t n s :
  checkThread tid s = true →
  StringID_isValid t = false ∨ StringID_isValid n = false →
  ∃ h s',
    handle tid t n s = Some (h, s', []) ∧
    isValid h = false ∧ m_payload h = nullptr ∧
    s' = s ∧ channels_ tid s' = channels_ tid s ∧
    size (channels s') = size (channels s).
Proof.
  intros Hth Hinv. exists CoreInterfaceHandle_default, s.
  split; [|done].
  destruct (handle_cases tid t n s Hth) as [[_ He]|[(Hv & _)|(Hv & _)]]; [done| |];
    apply andb_true_iff in Hv as [Ht Hn]; destruct Hinv; congruence.
Qed.

Lemma handle_invalid_key_witness :
  ∃ h s',
    handle 0 StringID_default Opacity (CoreInterface_new 0 []) = Some (h, s', []) ∧
    isValid h = false ∧ m_payload h = nullptr ∧
    s' = CoreInterface_new 0 [] ∧
    channels_ 0 s' = channels_ 0 (CoreInterface_new 0 []) ∧
    size (channels s') = size (channels (CoreInterface_new 0 [])).
Proof.
  apply (handle_invalid_key 0 StringID_default Opacity (CoreInterface_new 0 []));
    [reflexivity | left; reflexivity].
Defined.

(* ===================================================================== *)
(** ** Channel writes *)

(** C6. [setChannelData] through a handle that points at no slot destroys
    the offered payload (nothing is destroyed when it is [nullptr]), calls
    no listener and leaves the whole state as it was; the call returns
    normally. *)
Theorem setChannelData_invalid_handle tid h d s :
  checkThread tid s = true →
  m_payload h = nullptr →
  setChannelData tid h d s =
    Some (tt, s, match d with nullptr => [] | ptr a => [EvDelete a] end).
Proof.
  intros Hth Hnull. unfold setChannelData. rewrite Hth, Hnull. simpl.
  by destruct d.
Qed.

Lemma setChannelData_invalid_handle_witness :
  setChannelData 0 CoreInterfaceHandle_default (ptr 7)
    (mkState [CoreInterfacePayloadPrivate.mk (ptr 3)] 0
       {[ Float := {[ Opacity := mkHandle (ptr 0) Float Opacity ]} ]} ∅ [11] [21])
  = Some (tt,
          mkState [CoreInterfacePayloadPrivate.mk (ptr 3)] 0
            {[ Float := {[ Opacity := mkHandle (ptr 0) Float Opacity ]} ]} ∅ [11] [21],
          [EvDelete 7]).
Proof.
  apply (setChannelData_invalid_handle 0 CoreInterfaceHandle_default (ptr 7));
    reflexivity.
Defined.

(** C2. [setChannelData] through a handle whose payload is an allocated
    object destroys the data object the slot held, if any (one [EvDelete]
    of that object, before anything else), stores [d] in the slot
    (afterwards [h.data()] is [d]) and then calls every channel-changed
    listener once, in registration order, each with the handle's type key
    and name key and the new data [d]; nothing else changes.  When [d] is
    not the object the slot held, a second write through the same handle
    destroys [d] in turn, once, and stores the new data. *)
Theorem setChannelData_valid_handle tid h p old d s :
  checkThread tid s = true →
  m_payload h = ptr p →
  memory s !! p = Some old →
  ∃ s',
    setChannelData tid h d s =
      Some (tt, s',
            match CoreInterfacePayloadPrivate.data old with
            | nullptr => []
            | ptr a => [EvDelete a]
            end ++
            map (fun c => EvCall c (ChannelChangedArgs (m_typeID h) (m_nameID h) d))
                (channelChanged s)) ∧
    data h (memory s') = Some d ∧
    memory s' = <[p := CoreInterfacePayloadPrivate.mk d]> (memory s) ∧
    channels s' = channels s ∧ signalCallbacks s' = signalCallbacks s ∧
    channelListChanged s' = channelListChanged s ∧
    channelChanged s' = channelChanged s ∧
    ((∀ a, d = ptr a → CoreInterfacePayloadPrivate.data old ≠ ptr a) →
     ∀ d2, ∃ s'',
       setChannelData tid h d2 s' =
         Some (tt, s'',
               match d with
               | nullptr => []
               | ptr a => [EvDelete a]
               end ++
               map (fun c => EvCall c (ChannelChangedArgs (m_typeID h) (m_nameID h) d2))
                   (channelChanged s)) ∧
       data h (memory s'') = Some d2).
Proof.
  intros Hth Hp Hold.
  assert (Hlt : p < length (memory s)) by (by eapply lookup_lt_Some).
  assert (Hwrite : ∀ s0 old0 d0, checkThread tid s0 = true → memory s0 !! p = Some old0 →
            setChannelData tid h d0 s0 =
              Some (tt, set_memory (<[p := CoreInterfacePayloadPrivate.mk d0]> (memory s0)) s0,
                    match CoreInterfacePayloadPrivate.data old0 with
                    | nullptr => []
                    | ptr a => [EvDelete a]
                    end ++
                    map (fun c => EvCall c (ChannelChangedArgs (m_typeID h) (m_nameID h) d0))
                        (channelChanged s0)) ∧
            data h (<[p := CoreInterfacePayloadPrivate.mk d0]> (memory s0)) = Some d0).
  { intros s0 old0 d0 Hth0 Hold0.
    assert (Hlt0 : p < length (memory s0)) by (by eapply lookup_lt_Some).
    unfold setChannelData, data. rewrite Hth0, Hp, Hold0. simpl.
    rewrite list_lookup_insert_eq by done. simpl.
    split; [|done]. by destruct (CoreInterfacePayloadPrivate.data old0). }
  destruct (Hwrite s old d Hth Hold) as [Hset Hdata].
  eexists. split; [exact Hset|]. simpl.
  split; [done|]. do 5 (split; [done|]).
  intros _ d2.
  destruct (Hwrite (set_memory (<[p := CoreInterfacePayloadPrivate.mk d]> (memory s)) s)
              (CoreInterfacePayloadPrivate.mk d) d2) as [Hset2 Hdata2].
  - done.
  - simpl. by apply list_lookup_insert_eq.
  - eexists. split; [exact Hset2|]. done.
Qed.

Lemma setChannelData_valid_handle_witness :
  ∃ s',
    setChannelData 0 (mkHandle (ptr 0) Float Opacity) (ptr 8)
      (mkState [CoreInterfacePayloadPrivate.mk (ptr 5)] 0
         {[ Float := {[ Opacity := mkHandle (ptr 0) Float Opacity ]} ]} ∅ [] [21; 22])
    = Some (tt, s',
            [EvDelete 5] ++
            [EvCall 21 (ChannelChangedArgs Float Opacity (ptr 8));
             EvCall 22 (ChannelChangedArgs Float Opacity (ptr 8))]) ∧
    data (mkHandle (ptr 0) Float Opacity) (memory s') = Some (ptr 8) ∧
    ∃ s'',
      setChannelData 0 (mkHandle (ptr 0) Float Opacity) nullptr s'
      = Some (tt, s'',
              [EvDelete 8] ++
              [EvCall 21 (ChannelChangedArgs Float Opacity nullptr);
               EvCall 22 (ChannelChangedArgs Float Opacity nullptr)]) ∧
      data (mkHandle (ptr 0) Float Opacity) (memory s'') = Some nullptr.
Proof.
  destruct (setChannelData_valid_handle 0 (mkHandle (ptr 0) Float Opacity) 0
              (CoreInterfacePayloadPrivate.mk (ptr 5)) (ptr 8)
              (mkState [CoreInterfacePayloadPrivate.mk (ptr 5)] 0
                 {[ Float := {[ Opacity := mkHandle (ptr 0) Float Opacity ]} ]} ∅ [] [21; 22])
              eq_refl eq_refl eq_refl) as (s' & Hset & Hdata & _ & _ & _ & _ & _ & Hnext).
  exists s'. split; [exact Hset|]. split; [exact Hdata|].
  apply (Hnext ltac:(intros a [= <-]; discriminate) nullptr).
Defined.

(* ===================================================================== *)
(** ** Handle identity *)

Lemma handle_eqb_payload h1 h2 : (h1 == h2) = true ↔ m_payload h1 = m_payload h2.
Proof. unfold handle_eqb. apply bool_decide_eq_true. Qed.

(** Two requests for the same pair on one registry, with any use of the
    registry in between, return handles on the same payload. *)
Lemma handle_again_same_payload tid t n s h1 s1 evs1 ops s2 evs2 h2 s3 evs3 :
  handle tid t n s = Some (h1, s1, evs1) →
  run tid ops s1 = Some (s2, evs2) →
  handle tid t n s2 = Some (h2, s3, evs3) →
  m_payload h1 = m_payload h2.
Proof.
  intros H1 Hrun H2.
  pose proof (handle_Some_thread _ _ _ _ _ H1) as Hth1.
  pose proof (handle_Some_thread _ _ _ _ _ H2) as Hth2.
  assert (Hslot1 : StringID_isValid t && StringID_isValid n = true →
            slot s1 t n = Some h1 ∧ is_nonnull (m_payload h1) = true).
  { intros Hv.
    destruct (handle_cases tid t n s Hth1) as [[Hi _]|[(_ & Hnn & Hs & He)|(_ & _ & He)]];
      [congruence | |]; rewrite He in H1; simplify_eq.
    - done.
    - split; [apply slot_set_channels_eq | done]. }
  destruct (handle_cases tid t n s2 Hth2) as [[Hi He2]|[(Hv & _ & Hs2 & He2)|(Hv & Hnull & _)]].
  - rewrite He2 in H2. simplify_eq.
    destruct (handle_cases tid t n s Hth1) as [[_ He]|[(Hv & _)|(Hv & _)]];
      [|congruence|congruence].
    rewrite He in H1. by simplify_eq.
  - rewrite He2 in H2. simplify_eq.
    destruct (Hslot1 Hv) as [Hs1 Hnn].
    pose proof (run_slot_stable _ _ _ _ _ _ _ _ Hs1 Hnn Hrun) as Hst.
    rewrite Hst in Hs2. by simplify_eq.
  - destruct (Hslot1 Hv) as [Hs1 Hnn].
    pose proof (run_slot_stable _ _ _ _ _ _ _ _ Hs1 Hnn Hrun) as Hst.
    rewrite localHandle_of_slot, Hst in Hnull. simpl in Hnull.
    rewrite Hnull in Hnn. discriminate.
Qed.

(** C3. [h1 == h2] holds exactly when the two handles point at the same
    payload object (or both at none); the keys they store play no part.
    So two handles obtained independently for the same pair from one
    registry compare equal, two handles that point at no slot compare
    equal, and among the handles a client can hold on one registry,
    [==] holds only between handles of the same channel. *)
Theorem handle_eq_is_slot_identity :
  (∀ h1 h2, (h1 == h2) = true ↔ m_payload h1 = m_payload h2) ∧
  (∀ p t1 n1 t2 n2, (mkHandle p t1 n1 == mkHandle p t2 n2) = true) ∧
  (∀ tid t n s h1 s1 evs1 ops s2 evs2 h2 s3 evs3,
      handle tid t n s = Some (h1, s1, evs1) →
      run tid ops s1 = Some (s2, evs2) →
      handle tid t n s2 = Some (h2, s3, evs3) →
      (h1 == h2) = true) ∧
  (∀ h1 h2, m_payload h1 = nullptr → m_payload h2 = nullptr → (h1 == h2) = true) ∧
  (∀ tid s h1 h2, obtainable tid s h1 → obtainable tid s h2 →
      (h1 == h2) = true → h1 = h2).
Proof.
  split; [apply handle_eqb_payload|].
  split; [intros; by apply handle_eqb_payload|].
  split.
  { intros. apply handle_eqb_payload. by eapply handle_again_same_payload. }
  split.
  { intros h1 h2 H1 H2. apply handle_eqb_payload. congruence. }
  intros tid s h1 h2 Ho1 Ho2 Heq. apply handle_eqb_payload in Heq.
  apply obtainable_cases in Ho1 as [Hr [->|[(p1 & Hp1 & _ & Hs1) _]]];
    apply obtainable_cases in Ho2 as [_ [->|[(p2 & Hp2 & _ & Hs2) _]]].
  - done.
  - simpl in Heq. congruence.
  - simpl in Heq. congruence.
  - destruct (reachable_inj tid s Hr _ _ _ _ _ _ Hs1 Hs2 Heq) as [Ht Hn].
    rewrite Ht, Hn in Hs1. congruence.
Qed.

Lemma handle_eq_is_slot_identity_witness :
  (CoreInterfaceHandle_default == mkHandle nullptr Float Opacity) = true ∧
  (mkHandle (ptr 0) Float Opacity == mkHandle (ptr 0) Float Opacity) = true.
Proof.
  destruct handle_eq_is_slot_identity as (_ & _ & Hsame & Hnull & _).
  split.
  - apply (Hnull CoreInterfaceHandle_default (mkHandle nullptr Float Opacity));
      reflexivity.
  - apply (Hsame 0 Float Opacity (CoreInterface_new 0 [])
             (mkHandle (ptr 0) Float Opacity)
             (mkState [CoreInterfacePayloadPrivate.fresh] 0
                {[ Float := {[ Opacity := mkHandle (ptr 0) Float Opacity ]} ]} ∅ [] [])
             []
             [OpHandle Save Save]
             (mkState [CoreInterfacePayloadPrivate.fresh; CoreInterfacePayloadPrivate.fresh] 0
                (<[Save := {[ Save := mkHandle (ptr 1) Save Save ]}]>
                   {[ Float := {[ Opacity := mkHandle (ptr 0) Float Opacity ]} ]}) ∅ [] [])
             []
             (mkHandle (ptr 0) Float Opacity)
             (mkState [CoreInterfacePayloadPrivate.fresh; CoreInterfacePayloadPrivate.fresh] 0
                (<[Save := {[ Save := mkHandle (ptr 1) Save Save ]}]>
                   {[ Float := {[ Opacity := mkHandle (ptr 0) Float Opacity ]} ]}) ∅ [] [])
             []); vm_compute; reflexivity.
Defined.

(* ===================================================================== *)
(** ** Persisting a binding *)

Lemma saveState_document h :
  saveState h =
    Some (JObject [("typeID"%string, JString (toString (typeID h)));
                   ("nameID"%string, JString (toString (nameID h)))]).
Proof. done. Qed.

Lemma StringID_of_toString k : StringID_of_string (toString k) = k.
Proof. by destruct k. Qed.

(** C4. [saveState] always produces the document
    [{typeID: ..., nameID: ...}] of the handle's keys, and [loadState] of
    that document on any registry is the call [handle(h.typeID(),
    h.nameID())] on that registry: same returned handle, same effect; a
    later [handle] call for these keys returns a handle that compares
    equal.  When the keys are valid and the registry has no entry for them,
    loading creates the slot and calls the channel-list-changed
    listeners. *)
Theorem loadState_saveState_round_trip tid h s :
  ∃ j,
    saveState h = Some j ∧
    loadState tid j s = handle tid (typeID h) (nameID h) s ∧
    (checkThread tid s = true →
       ∃ h1 s1 evs1 h2 s2 evs2,
         loadState tid j s = Some (h1, s1, evs1) ∧
         handle tid (typeID h) (nameID h) s1 = Some (h2, s2, evs2) ∧
         (h1 == h2) = true) ∧
    (checkThread tid s = true →
     StringID_isValid (typeID h) = true → StringID_isValid (nameID h) = true →
     slot s (typeID h) (nameID h) = None →
       ∃ h1 s1,
         loadState tid j s =
           Some (h1, s1,
                 map (fun c => EvCall c ChannelListChangedArgs) (channelListChanged s)) ∧
         m_payload h1 = ptr (length (memory s)) ∧
         memory s1 = memory s ++ [CoreInterfacePayloadPrivate.fresh] ∧
         slot s1 (typeID h) (nameID h) = Some h1).
Proof.
  eexists. split; [apply saveState_document|].
  assert (Hload : ∀ s0,
            loadState tid
              (JObject [("typeID"%string, JString (toString (typeID h)));
                        ("nameID"%string, JString (toString (nameID h)))]) s0
            = handle tid (typeID h) (nameID h) s0).
  { intros s0. unfold loadState. simpl. by rewrite !StringID_of_toString. }
  split; [apply Hload|]. split.
  - intros Hth. rewrite Hload.
    destruct (handle tid (typeID h) (nameID h) s) as [[[h1 s1] evs1]|] eqn:H1.
    2:{ destruct (handle_cases tid (typeID h) (nameID h) s Hth)
          as [[_ He]|[(_ & _ & _ & He)|(_ & _ & He)]]; congruence. }
    assert (Hth1 : checkThread tid s1 = true).
    { pose proof (step_checkThread tid (OpHandle (typeID h) (nameID h)) s s1 evs1) as Hc.
      simpl in Hc. rewrite H1 in Hc. rewrite Hc; done. }
    destruct (handle tid (typeID h) (nameID h) s1) as [[[h2 s2] evs2]|] eqn:H2.
    2:{ destruct (handle_cases tid (typeID h) (nameID h) s1 Hth1)
          as [[_ He]|[(_ & _ & _ & He)|(_ & _ & He)]]; congruence. }
    exists h1, s1, evs1, h2, s2, evs2. split; [done|]. split; [done|].
    apply handle_eqb_payload.
    by eapply (handle_again_same_payload tid (typeID h) (nameID h) s h1 s1 evs1 []).
  - intros Hth Ht Hn Hnone. rewrite Hload.
    destruct (handle_creates tid _ _ s Hth Ht Hn Hnone) as (s1 & He & Hmem & Hslot).
    eexists _, s1. split; [exact He|]. done.
Qed.

Lemma loadState_saveState_round_trip_witness :
  ∃ h1 s1,
    loadState 0
      (JObject [("typeID"%string, JString "Float"); ("nameID"%string, JString "Opacity")])
      (mkState [] 0 ∅ ∅ [11] [])
    = Some (h1, s1, [EvCall 11 ChannelListChangedArgs]) ∧
    m_payload h1 = ptr 0 ∧
    slot s1 Float Opacity = Some h1.
Proof.
  destruct (loadState_saveState_round_trip 0 (mkHandle (ptr 4) Float Opacity)
              (mkState [] 0 ∅ ∅ [11] [])) as (j & Hsave & _ & _ & Hcreate).
  injection Hsave as <-.
  destruct (Hcreate eq_refl eq_refl eq_refl eq_refl) as (h1 & s1 & Hl & Hp & _ & Hs).
  exists h1, s1. split; [exact Hl|]. split; [exact Hp | exact Hs].
Defined.

(* ===================================================================== *)
(** ** Signals *)

Lemma signalListeners_set_insert s0 s t t' l :
  signalListeners (set_signalCallbacks (<[t := l]> (signalCallbacks s)) s0) t'
  = if decide (t = t') then l else signalListeners s t'.
Proof.
  unfold signalListeners; simpl. rewrite lookup_insert.
  by destruct (decide (t = t')).
Qed.

Lemma signalListeners_set_delete s0 s t t' :
  signalListeners (set_signalCallbacks (delete t (signalCallbacks s)) s0) t'
  = if decide (t = t') then [] else signalListeners s t'.
Proof.
  unfold signalListeners; simpl. rewrite lookup_delete.
  by destruct (decide (t = t')).
Qed.

Lemma step_signalListeners tid op s s' evs t :
  step tid op s = Some (s', evs) →
  signalListeners s' t = register_history t (signalListeners s t) op.
Proof.
  intros H. destruct op; simpl in *;
    try (step_inv H; done).
  - (* sendSignal *)
    unfold sendSignal, effect in H. destruct (checkThread tid s); simpl in H; [|done].
    simplify_eq. rewrite signalListeners_set_insert.
    by destruct (decide (typeID0 = t)) as [->|].
  - (* registerCallback *)
    unfold registerCallback, effect in H. destruct (checkThread tid s); simpl in H; [|done].
    simplify_eq. rewrite signalListeners_set_insert.
    by destruct (decide (typeID0 = t)) as [->|].
  - (* unregisterCallback *)
    unfold unregisterCallback, effect in H. destruct (checkThread tid s); simpl in H; [|done].
    simplify_eq. fold (signalListeners s typeID0).
    destruct (tpRemoveOne (signalListeners s typeID0) callback) as [|c cs] eqn:Hrm.
    + rewrite signalListeners_set_delete.
      destruct (decide (typeID0 = t)) as [->|]; [by rewrite Hrm | done].
    + rewrite signalListeners_set_insert.
      destruct (decide (typeID0 = t)) as [->|]; [by rewrite Hrm | done].
Qed.

Lemma run_signalListeners tid ops s s' evs t :
  run tid ops s = Some (s', evs) →
  signalListeners s' t = fold_left (register_history t) ops (signalListeners s t).
Proof.
  revert s s' evs. induction ops as [|op ops IH]; intros s s' evs H; simpl in H.
  - by simplify_eq.
  - destruct (step tid op s) as [[s1 e1]|] eqn:H1; [|done].
    destruct (run tid ops s1) as [[s2 e2]|] eqn:H2; [|done].
    simplify_eq. simpl. rewrite (IH _ _ _ H2).
    by rewrite (step_signalListeners _ _ _ _ _ t H1).
Qed.

(** No call tells such states apart: it aborts on both or causes the same
    events on both, and leaves states of the same kind. *)
Lemma step_observably_equal tid op s1 s2 :
  observably_equal s1 s2 →
  match step tid op s1, step tid op s2 with
  | Some (s1', evs1), Some (s2', evs2) => evs1 = evs2 ∧ observably_equal s1' s2'
  | None, None => True
  | _, _ => False
  end.
Proof.
  intros (Hm & Ho & Hc & Hl & Hcc & Hsig).
  assert (Hsig' : ∀ s1' e1 s2' e2,
            step tid op s1 = Some (s1', e1) → step tid op s2 = Some (s2', e2) →
            ∀ t, signalListeners s1' t = signalListeners s2' t).
  { intros s1' e1 s2' e2 H1 H2 t.
    rewrite (step_signalListeners _ _ _ _ _ t H1).
    rewrite (step_signalListeners _ _ _ _ _ t H2). by rewrite Hsig. }
  destruct s1 as [m1 o1 c1 sc1 l1 cc1], s2 as [m2 o2 c2 sc2 l2 cc2].
  simpl in Hm, Ho, Hc, Hl, Hcc. subst m2 o2 c2 l2 cc2.
  destruct op; simpl in *;
    unfold loadState, handle, setChannelData, sendSignal, registerCallback,
      unregisterCallback, checkThread, effect in *; simpl in *.
  all: repeat case_match; simplify_eq; try done.
  all: try (split; [|split_and!; try done; by eapply Hsig']).
  all: try done.
  all: unfold signalListeners in Hsig; simpl in Hsig.
  all: by rewrite (Hsig typeID0).
Qed.

Lemma run_observably_equal tid ops s1 s2 :
  observably_equal s1 s2 →
  match run tid ops s1, run tid ops s2 with
  | Some (s1', evs1), Some (s2', evs2) => evs1 = evs2 ∧ observably_equal s1' s2'
  | None, None => True
  | _, _ => False
  end.
Proof.
  revert s1 s2. induction ops as [|op ops IH]; intros s1 s2 Hobs; simpl; [done|].
  pose proof (step_observably_equal tid op s1 s2 Hobs) as Hstep.
  destruct (step tid op s1) as [[s1' e1]|], (step tid op s2) as [[s2' e2]|]; try done.
  destruct Hstep as [-> Hobs'].
  specialize (IH s1' s2' Hobs').
  destruct (run tid ops s1') as [[s1'' e1']|], (run tid ops s2') as [[s2'' e2']|]; try done.
  destruct IH as [-> Hobs'']. done.
Qed.

(** Nor do the handles returned by [handle] or the data read through them
    differ. *)
Lemma handle_observably_equal tid t n s1 s2 :
  observably_equal s1 s2 →
  match handle tid t n s1, handle tid t n s2 with
  | Some (h1, s1', evs1), Some (h2, s2', evs2) =>
      h1 = h2 ∧ evs1 = evs2 ∧ observably_equal s1' s2'
  | None, None => True
  | _, _ => False
  end.
Proof.
  intros Hobs.
  pose proof (step_observably_equal tid (OpHandle t n) s1 s2 Hobs) as Hstep.
  simpl in Hstep.
  destruct Hobs as (Hm & Ho & Hc & Hl & Hcc & _).
  destruct (handle tid t n s1) as [[[h1 s1'] e1]|] eqn:H1,
           (handle tid t n s2) as [[[h2 s2'] e2]|] eqn:H2; simpl in Hstep; try done.
  destruct Hstep as [-> Hobs']. split; [|done].
  pose proof (handle_Some_thread _ _ _ _ _ H1) as Hth1.
  pose proof (handle_Some_thread _ _ _ _ _ H2) as Hth2.
  assert (Hloc : localHandle_of s1 t n = localHandle_of s2 t n).
  { unfold localHandle_of. by rewrite Hc. }
  destruct (handle_cases tid t n s1 Hth1) as [[Hv1 He1]|[(Hv1 & Hn1 & _ & He1)|(Hv1 & Hn1 & He1)]];
    destruct (handle_cases tid t n s2 Hth2) as [[Hv2 He2]|[(Hv2 & Hn2 & _ & He2)|(Hv2 & Hn2 & He2)]];
    rewrite He1 in H1; rewrite He2 in H2; simplify_eq; try done; try congruence.
  - rewrite Hloc, Hn2 in Hn1. discriminate.
  - rewrite Hloc in Hn1. rewrite Hn1 in Hn2. discriminate.
Qed.

(** The empty entry is really there: the table of a new registry has one
    entry after a signal nobody listens to. *)
Example sendSignal_leaves_empty_entry :
  sendSignal 0 Save nullptr (CoreInterface_new 0 [])
  = Some (tt, mkState [] 0 ∅ {[ Save := [] ]} [] [], []).
Proof. vm_compute. reflexivity. Qed.

Lemma sendSignal_events tid t d s :
  checkThread tid s = true →
  ∃ s',
    sendSignal tid t d s =
      Some (tt, s', map (fun c => EvCall c (SignalArgs t d)) (signalListeners s t)) ∧
    observably_equal s s'.
Proof.
  intros Hth. unfold sendSignal. rewrite Hth. simpl.
  eexists. split; [done|].
  repeat split; try done.
  intros t'. rewrite signalListeners_set_insert.
  by destruct (decide (t = t')) as [->|].
Qed.

(** C7. After any history of calls on a new registry, [sendSignal(t, d)]
    calls the listeners registered for [t], one call per registration and
    in registration order, each with the type key [t] and the same payload
    pointer [d], before it returns; with no listener registered for [t] it
    calls nothing.  It never touches the payload store or the channel
    table: the state it leaves differs from the one it found at most by an
    empty listener list for [t], which no call can tell apart. *)
Theorem sendSignal_dispatch tid mem ops s evs0 t d :
  run tid ops (CoreInterface_new tid mem) = Some (s, evs0) →
  ∃ s',
    sendSignal tid t d s =
      Some (tt, s', map (fun c => EvCall c (SignalArgs t d)) (registered t ops)) ∧
    (registered t ops = [] → sendSignal tid t d s = Some (tt, s', [])) ∧
    memory s' = memory s ∧ channels s' = channels s ∧
    observably_equal s s'.
Proof.
  intros Hrun.
  assert (Hth : checkThread tid s = true).
  { apply (reachable_checkThread tid). by exists mem, ops, evs0. }
  destruct (sendSignal_events tid t d s Hth) as (s' & Hsend & Hobs).
  assert (Hreg : signalListeners s t = registered t ops).
  { rewrite (run_signalListeners _ _ _ _ _ t Hrun). done. }
  rewrite Hreg in Hsend. exists s'.
  split; [done|]. split.
  { intros Hnil. by rewrite Hnil in Hsend. }
  pose proof Hobs as (Hm & _ & Hc & _).
  split; [done|]. split; [done|]. exact Hobs.
Qed.

Lemma sendSignal_dispatch_witness :
  ∃ s',
    sendSignal 0 Save (ptr 7)
      (mkState [] 0 ∅ (<[Save := [31; 32]]> (<[Float := [33]]> {[ Save := [31] ]})) [] [])
    = Some (tt, s',
            [EvCall 31 (SignalArgs Save (ptr 7)); EvCall 32 (SignalArgs Save (ptr 7))]).
Proof.
  destruct (sendSignal_dispatch 0 []
              [OpRegisterCallback 31 Save; OpRegisterCallback 33 Float;
               OpRegisterCallback 32 Save]
              (mkState [] 0 ∅ (<[Save := [31; 32]]> (<[Float := [33]]> {[ Save := [31] ]})) [] [])
              [] Save (ptr 7) eq_refl) as (s' & Hsend & _).
  exists s'. exact Hsend.
Defined.

(** [sendSignal] destroys nothing. *)
Lemma sendSignal_never_deletes tid t d s u s' evs a :
  sendSignal tid t d s = Some (u, s', evs) → EvDelete a ∉ evs.
Proof.
  unfold sendSignal. destruct (checkThread tid s); simpl; [|done].
  intros [= <- <- <-]. unfold invokeAll.
  intros Hin. apply list_elem_of_fmap in Hin as (c & Hc & _). discriminate.
Qed.

(** C8 (the code departs from it). [sendSignal] keeps no reference to the
    payload, but it does not destroy it either: with two listeners
    registered for ["Save"], [sendSignal("Save", d)] with [d] at address 7
    calls the two listeners and returns; no [delete] of the object at 7
    takes place, during or after the dispatch. *)
Theorem sendSignal_payload_not_destroyed :
  ∃ s s',
    run 0 [OpRegisterCallback 31 Save; OpRegisterCallback 32 Save] (CoreInterface_new 0 [])
      = Some (s, []) ∧
    sendSignal 0 Save (ptr 7) s =
      Some (tt, s',
            [EvCall 31 (SignalArgs Save (ptr 7)); EvCall 32 (SignalArgs Save (ptr 7))]) ∧
    (EvDelete 7 ∉ [EvCall 31 (SignalArgs Save (ptr 7)); EvCall 32 (SignalArgs Save (ptr 7))]) ∧
    memory s' = memory s ∧ channels s' = channels s.
Proof.
  exists (mkState [] 0 ∅ (<[Save := [31; 32]]> {[ Save := [31] ]}) [] []).
  exists (mkState [] 0 ∅ (<[Save := [31; 32]]> (<[Save := [31; 32]]> {[ Save := [31] ]})) [] []).
  split; [vm_compute; reflexivity|].
  split; [vm_compute; reflexivity|].
  split; [|done].
  eapply (sendSignal_never_deletes 0 Save (ptr 7)
            (mkState [] 0 ∅ (<[Save := [31; 32]]> {[ Save := [31] ]}) [] [])).
  vm_compute. reflexivity.
Qed.

(* ===================================================================== *)
(** ** Validity and data of the handles a client can hold *)

(** C9. For a handle obtained through the public interface (default
    construction, [handle], [loadState], or a copy kept while the registry
    is used further), [isValid()] holds exactly when both keys are valid
    and the handle references a real slot of the registry; the keys are
    valid exactly when the payload pointer is not null. *)
Theorem isValid_iff_keys_and_slot tid s h :
  obtainable tid s h →
  (isValid h = true ↔
     StringID_isValid (typeID h) = true ∧ StringID_isValid (nameID h) = true ∧
     references_slot s h) ∧
  (StringID_isValid (typeID h) = true ∧ StringID_isValid (nameID h) = true ↔
     m_payload h ≠ nullptr).
Proof.
  intros Hob. apply obtainable_cases in Hob as [_ [->|(Href & Ht & Hn)]].
  - split; split.
    + intros Hv. discriminate.
    + intros (Ht & _). discriminate.
    + intros (Ht & _). discriminate.
    + intros Hp. by destruct Hp.
  - unfold isValid, typeID, nameID. rewrite Ht, Hn. split; split; try done.
    intros _. destruct Href as (p & Hp & _). by rewrite Hp.
Qed.

Lemma isValid_iff_keys_and_slot_witness :
  isValid (mkHandle (ptr 0) Float Opacity) = true ↔
    StringID_isValid Float = true ∧ StringID_isValid Opacity = true ∧
    references_slot
      (mkState [CoreInterfacePayloadPrivate.fresh] 0
         {[ Float := {[ Opacity := mkHandle (ptr 0) Float Opacity ]} ]} ∅ [] [])
      (mkHandle (ptr 0) Float Opacity).
Proof.
  apply (isValid_iff_keys_and_slot 0
           (mkState [CoreInterfacePayloadPrivate.fresh] 0
              {[ Float := {[ Opacity := mkHandle (ptr 0) Float Opacity ]} ]} ∅ [] [])
           (mkHandle (ptr 0) Float Opacity)).
  apply (obtain_handle 0 (CoreInterface_new 0 []) Float Opacity _ _
           (invokeAll [] ChannelListChangedArgs)).
  - exists [], [], []. reflexivity.
  - vm_compute. reflexivity.
Defined.

Lemma step_unwritten_at tid op s s' evs p :
  channels_wf s → writes p op = false →
  unwritten_at p s → step tid op s = Some (s', evs) → unwritten_at p s'.
Proof.
  intros Hwf Hw Hun H t n h Hslot Hp.
  destruct (requests t n op) eqn:Hreq.
  - destruct (step_requested_cases _ _ _ _ _ _ _ Hreq H) as [->|[Hnew _]].
    + by eapply Hun.
    + rewrite Hnew in Hslot. simplify_eq. simpl in Hp. simplify_eq.
      rewrite (step_requested _ _ _ _ _ Hreq) in H.
      destruct (handle tid t n s) as [[[h0 s1] e1]|] eqn:Hh; simpl in H; [|done].
      simplify_eq.
      pose proof (handle_Some_thread _ _ _ _ _ Hh) as Hth.
      destruct (handle_cases tid t n s Hth) as [[_ He]|[(_ & _ & _ & He)|(_ & _ & He)]];
        rewrite He in Hh; simplify_eq.
      * destruct (Hwf _ _ _ Hnew) as (p' & Hp' & Hlt & _). simpl in Hp'. simplify_eq. lia.
      * destruct (Hwf _ _ _ Hnew) as (p' & Hp' & Hlt & _). simpl in Hp'. simplify_eq. lia.
      * simpl. by rewrite lookup_app_r, Nat.sub_diag.
  - rewrite (step_slot_unrequested _ _ _ _ _ _ _ Hreq H) in Hslot.
    eapply step_memory_unwritten; [done| |done]. by eapply Hun.
Qed.

Lemma run_unwritten_at tid ops s s' evs p :
  channels_wf s → Forall (fun op => writes p op = false) ops →
  unwritten_at p s → run tid ops s = Some (s', evs) → unwritten_at p s'.
Proof.
  revert s s' evs. induction ops as [|op ops IH]; intros s s' evs Hwf Hall Hun H; simpl in H.
  - by simplify_eq.
  - apply Forall_cons in Hall as [Hop Hall].
    destruct (step tid op s) as [[s1 e1]|] eqn:H1; [|done].
    destruct (run tid ops s1) as [[s2 e2]|] eqn:H2; [|done].
    simplify_eq. eapply (IH s1); [by eapply step_wf | done | | done].
    by eapply step_unwritten_at.
Qed.

(** C10. [data()] never fails on a handle a client can hold.  It returns
    [nullptr] for every handle that points at no slot, and for a handle
    returned by [handle] whose slot no [setChannelData] call has written
    since the registry was constructed. *)
Theorem data_total_and_initially_null :
  (∀ h mem, m_payload h = nullptr → data h mem = Some nullptr) ∧
  (∀ tid s h, obtainable tid s h → ∃ v, data h (memory s) = Some v) ∧
  (∀ tid mem ops s evs0 t n h s1 evs1 p,
      run tid ops (CoreInterface_new tid mem) = Some (s, evs0) →
      handle tid t n s = Some (h, s1, evs1) →
      m_payload h = ptr p →
      Forall (fun op => writes p op = false) ops →
      data h (memory s1) = Some nullptr).
Proof.
  split; [|split].
  - intros h mem Hnull. unfold data. by rewrite Hnull.
  - intros tid s h Hob.
    apply obtainable_cases in Hob as [_ [->|[(p & Hp & Hlt & _) _]]].
    + by exists nullptr.
    + unfold data. rewrite Hp.
      destruct (lookup_lt_is_Some_2 (memory s) p Hlt) as [pl Hpl].
      rewrite Hpl. by eexists.
  - intros tid mem ops s evs0 t n h s1 evs1 p Hrun Hh Hp Hall.
    assert (Hun : unwritten_at p s).
    { eapply run_unwritten_at; [apply new_wf | done | | done].
      intros t0 n0 h0 Hs. unfold slot in Hs. simpl in Hs. by rewrite lookup_empty in Hs. }
    pose proof (handle_Some_thread _ _ _ _ _ Hh) as Hth.
    unfold data. rewrite Hp.
    destruct (handle_cases tid t n s Hth) as [[_ He]|[(_ & _ & Hs & He)|(_ & _ & He)]];
      rewrite He in Hh; simplify_eq.
    + by rewrite (Hun _ _ _ Hs Hp).
    + simpl in *. simplify_eq. by rewrite lookup_app_r, Nat.sub_diag.
Qed.

Lemma data_total_and_initially_null_witness :
  data CoreInterfaceHandle_default [] = Some nullptr ∧
  data (mkHandle (ptr 0) Float Opacity)
       [CoreInterfacePayloadPrivate.fresh; CoreInterfacePayloadPrivate.mk (ptr 9)]
  = Some nullptr.
Proof.
  destruct data_total_and_initially_null as (Hnull & _ & Hfresh).
  split.
  - apply (Hnull CoreInterfaceHandle_default []). reflexivity.
  - apply (Hfresh 0 []
             [OpHandle Float Opacity; OpHandle Float Save;
              OpSetChannelData (mkHandle (ptr 1) Float Save) (ptr 9)]
             (mkState [CoreInterfacePayloadPrivate.fresh; CoreInterfacePayloadPrivate.mk (ptr 9)] 0
                (<[Float := <[Save := mkHandle (ptr 1) Float Save]>
                               {[ Opacity := mkHandle (ptr 0) Float Opacity ]}]>
                   {[ Float := {[ Opacity := mkHandle (ptr 0) Float Opacity ]} ]}) ∅ [] [])
             [] Float Opacity (mkHandle (ptr 0) Float Opacity)
             (mkState [CoreInterfacePayloadPrivate.fresh; CoreInterfacePayloadPrivate.mk (ptr 9)] 0
                (<[Float := <[Save := mkHandle (ptr 1) Float Save]>
                               {[ Opacity := mkHandle (ptr 0) Float Opacity ]}]>
                   {[ Float := {[ Opacity := mkHandle (ptr 0) Float Opacity ]} ]}) ∅ [] [])
             [] 0).
    + vm_compute. reflexivity.
    + vm_compute. reflexivity.
    + reflexivity.
    + repeat constructor.
Defined.

(* ===================================================================== *)
(** ** The thread guard *)

Lemma run_ownerThread tid ops s s' evs :
  run tid ops s = Some (s', evs) → ownerThread s' = ownerThread s.
Proof.
  intros H.
  eapply (run_preserves (fun x => ownerThread x = ownerThread s)); [|done|done].
  intros op s0 s1 e1 H0 H1. by rewrite (step_ownerThread _ _ _ _ _ H1).
Qed.

(** X1. The owner thread is fixed at construction and never changes: in
    every state of a registry constructed on [tid0], every member function
    called from another thread fails its assertion, whatever its
    arguments. *)
Theorem foreign_thread_always_aborts tid0 tid mem ops s evs :
  run tid0 ops (CoreInterface_new tid0 mem) = Some (s, evs) →
  tid ≠ tid0 →
  channels_ tid s = None ∧
  (∀ t n, handle tid t n s = None) ∧
  (∀ j, loadState tid j s = None) ∧
  (∀ h d, setChannelData tid h d s = None) ∧
  (∀ t d, sendSignal tid t d s = None) ∧
  (∀ c t, registerCallback tid c t s = None) ∧
  (∀ c t, unregisterCallback tid c t s = None) ∧
  (∀ c, registerCallback_ChannelListChanged tid c s = None) ∧
  (∀ c, unregisterCallback_ChannelListChanged tid c s = None) ∧
  (∀ c, registerCallback_ChannelChanged tid c s = None) ∧
  (∀ c, unregisterCallback_ChannelChanged tid c s = None) ∧
  CoreInterface_destructor tid s = None.
Proof.
  intros Hrun Hne.
  assert (Hth : checkThread tid s = false).
  { apply bool_decide_eq_false. rewrite (run_ownerThread _ _ _ _ _ Hrun). simpl. congruence. }
  unfold channels_, loadState, handle, setChannelData, sendSignal, registerCallback,
    unregisterCallback, registerCallback_ChannelListChanged,
    unregisterCallback_ChannelListChanged, registerCallback_ChannelChanged,
    unregisterCallback_ChannelChanged, CoreInterface_destructor.
  rewrite Hth. simpl. repeat split; done.
Qed.

Lemma foreign_thread_always_aborts_witness :
  setChannelData 1 (mkHandle (ptr 0) Float Opacity) (ptr 5) one_channel = None.
Proof.
  destruct (foreign_thread_always_aborts 0 1 [] [OpHandle Float Opacity] one_channel
              [] eq_refl) as (_ & _ & _ & Hset & _).
  - discriminate.
  - apply Hset.
Defined.

(* ===================================================================== *)
(** ** What the channel table holds *)

(** X2. On a registry in any reachable state, [handle(t, n)] with valid
    keys returns a valid handle that carries exactly the keys asked for,
    also when the slot existed before, and afterwards [channels()] holds
    that handle under [(t, n)]. *)
Theorem handle_returns_requested_keys tid s t n :
  reachable tid s →
  StringID_isValid t = true → StringID_isValid n = true →
  ∃ h s' evs,
    handle tid t n s = Some (h, s', evs) ∧
    typeID h = t ∧ nameID h = n ∧ isValid h = true ∧
    (∀ t' n', is_ h t' n' = true ↔ t' = t ∧ n' = n) ∧
    (channels_ tid s' ≫= fun ch => ch !! t ≫= fun inner => inner !! n) = Some h.
Proof.
  intros Hr Ht Hn.
  pose proof (reachable_checkThread _ _ Hr) as Hth.
  pose proof (reachable_wf _ _ Hr) as Hwf.
  assert (Hfin : ∀ h s', slot s' t n = Some h → checkThread tid s' = true →
            m_typeID h = t → m_nameID h = n →
            typeID h = t ∧ nameID h = n ∧ isValid h = true ∧
            (∀ t' n', is_ h t' n' = true ↔ t' = t ∧ n' = n) ∧
            (channels_ tid s' ≫= fun ch => ch !! t ≫= fun inner => inner !! n) = Some h).
  { intros h s' Hslot Hth' Hkt Hkn. unfold typeID, nameID, isValid, is_, channels_.
    rewrite Hth', Hkt, Hkn, Ht, Hn. simpl.
    split; [done|]. split; [done|]. split; [done|]. split.
    - intros t' n'. rewrite andb_true_iff, !bool_decide_eq_true.
      split; intros [H1 H2]; by subst.
    - apply slot_Some in Hslot as (inner & Hi & Hin). rewrite Hi. simpl. done. }
  destruct (handle_cases tid t n s Hth) as [[Hv _]|[(_ & _ & Hs & He)|(_ & _ & He)]].
  - rewrite Ht, Hn in Hv. discriminate.
  - eexists _, _, _. split; [exact He|].
    destruct (Hwf _ _ _ Hs) as (p & _ & _ & Hkt & Hkn & _).
    by apply Hfin.
  - eexists _, _, _. split; [exact He|].
    apply Hfin; try done. apply slot_set_channels_eq.
Qed.

Lemma handle_returns_requested_keys_witness :
  ∃ h s' evs,
    handle 0 Float Opacity one_channel = Some (h, s', evs) ∧
    typeID h = Float ∧ nameID h = Opacity.
Proof.
  destruct (handle_returns_requested_keys 0 one_channel Float Opacity)
    as (h & s' & evs & He & Ht & Hn & _).
  - exists [], [OpHandle Float Opacity], []. reflexivity.
  - reflexivity.
  - reflexivity.
  - exists h, s', evs. split; [exact He|]. split; [exact Ht | exact Hn].
Defined.

Lemma step_slot_is_Some tid op s s' evs t n :
  step tid op s = Some (s', evs) →
  (is_Some (slot s' t n) ↔
   is_Some (slot s t n) ∨
   (StringID_isValid t = true ∧ StringID_isValid n = true ∧ requests t n op = true)).
Proof.
  intros H. destruct (requests t n op) eqn:Hreq.
  - rewrite (step_requested _ _ _ _ _ Hreq) in H.
    destruct (handle tid t n s) as [[[h0 s1] e1]|] eqn:Hh; simpl in H; [|done].
    simplify_eq.
    pose proof (handle_Some_thread _ _ _ _ _ Hh) as Hth.
    destruct (handle_cases tid t n s Hth) as [[Hv He]|[(Hv & _ & Hs & He)|(Hv & _ & He)]];
      rewrite He in Hh; simplify_eq.
    + split; [by left|]. intros [H|(Ht & Hn & _)]; [done|].
      rewrite Ht, Hn in Hv. discriminate.
    + rewrite Hs. split; [by left | by eexists].
    + rewrite slot_set_channels_eq. apply andb_true_iff in Hv as [Ht Hn].
      split; [by right | by eexists].
  - rewrite (step_slot_unrequested _ _ _ _ _ _ _ Hreq H).
    split; [by left|]. by intros [H0|(_ & _ & [=])].
Qed.

Lemma run_slot_is_Some tid ops s s' evs t n :
  run tid ops s = Some (s', evs) →
  (is_Some (slot s' t n) ↔
   is_Some (slot s t n) ∨
   (StringID_isValid t = true ∧ StringID_isValid n = true ∧
    Exists (fun op => requests t n op = true) ops)).
Proof.
  revert s s' evs. induction ops as [|op ops IH]; intros s s' evs H; simpl in H.
  - simplify_eq. split; [by left|]. intros [H|(_ & _ & H)]; [done|]. by apply Exists_nil in H.
  - destruct (step tid op s) as [[s1 e1]|] eqn:H1; [|done].
    destruct (run tid ops s1) as [[s2 e2]|] eqn:H2; [|done].
    simplify_eq. rewrite (IH _ _ _ H2). rewrite (step_slot_is_Some _ _ _ _ _ t n H1).
    rewrite Exists_cons. tauto.
Qed.

(** X3. [channels()] holds an entry for [(t, n)] exactly when both keys
    are valid and some earlier [handle] or [loadState] call asked for that
    pair: no other call creates a channel, a request with an invalid key
    creates none, and no call removes one. *)
Theorem channels_lists_exactly_the_requested_pairs tid mem ops s evs t n :
  run tid ops (CoreInterface_new tid mem) = Some (s, evs) →
  (is_Some (slot s t n) ↔
   StringID_isValid t = true ∧ StringID_isValid n = true ∧
   Exists (fun op => requests t n op = true) ops).
Proof.
  intros Hrun. rewrite (run_slot_is_Some _ _ _ _ _ t n Hrun).
  split; [|by right]. intros [[h H]|H]; [|done].
  unfold slot in H. simpl in H. by rewrite lookup_empty in H.
Qed.

Lemma channels_lists_exactly_the_requested_pairs_witness :
  is_Some (slot (set_signalCallbacks {[ Save := [] ]} one_channel) Float Opacity) ↔
  StringID_isValid Float = true ∧ StringID_isValid Opacity = true ∧
  Exists (fun op => requests Float Opacity op = true)
    [OpHandle StringID_default Save; OpSendSignal Save nullptr; OpHandle Float Opacity].
Proof.
  apply (channels_lists_exactly_the_requested_pairs 0 []
           [OpHandle StringID_default Save; OpSendSignal Save nullptr; OpHandle Float Opacity]
           _ []).
  vm_compute. reflexivity.
Defined.

(** X4. In every reachable state each entry of [channels()] is a valid
    handle that carries the keys it is stored under and points at an
    allocated payload, and handles stored under different pairs never
    compare equal. *)
Theorem channels_entries_valid_and_distinct tid s :
  reachable tid s →
  (∀ t n h, slot s t n = Some h →
     is_ h t n = true ∧ isValid h = true ∧ is_Some (data h (memory s))) ∧
  (∀ t n h t' n' h', slot s t n = Some h → slot s t' n' = Some h' →
     (t, n) ≠ (t', n') → (h == h') = false).
Proof.
  intros Hr. split.
  - intros t n h Hs.
    destruct (reachable_wf _ _ Hr _ _ _ Hs) as (p & Hp & Hlt & Ht & Hn & Hvt & Hvn).
    unfold is_, isValid, data. rewrite Hp, Ht, Hn, Hvt, Hvn.
    rewrite !bool_decide_eq_true_2 by done.
    destruct (lookup_lt_is_Some_2 (memory s) p Hlt) as [pl Hpl]. rewrite Hpl.
    split; [done|]. split; [done|]. by eexists.
  - intros t n h t' n' h' Hs Hs' Hne.
    destruct (h == h') eqn:Heq; [|done]. exfalso.
    apply handle_eqb_payload in Heq.
    destruct (reachable_inj _ _ Hr _ _ _ _ _ _ Hs Hs' Heq) as [-> ->]. done.
Qed.

Lemma channels_entries_valid_and_distinct_witness :
  (mkHandle (ptr 0) Float Opacity == mkHandle (ptr 1) Float Save) = false.
Proof.
  destruct (channels_entries_valid_and_distinct 0 two_channels) as [_ Hdist].
  - exists [], [OpHandle Float Opacity; OpHandle Float Save], []. vm_compute. reflexivity.
  - apply (Hdist Float Opacity _ Float Save _); [vm_compute; reflexivity .. | discriminate].
Defined.

(* ===================================================================== *)
(** ** Reading and writing through handles *)

Lemma setChannelData_data tid h d s s' evs p :
  setChannelData tid h d s = Some (tt, s', evs) → m_payload h = ptr p →
  p < length (memory s) ∧
  memory s' = <[p := CoreInterfacePayloadPrivate.mk d]> (memory s) ∧
  channels s' = channels s ∧ checkThread tid s' = true.
Proof.
  intros H Hp. unfold setChannelData in H. rewrite Hp in H.
  destruct (checkThread tid s) eqn:Hth; simpl in H; [|done].
  destruct (memory s !! p) as [old|] eqn:Hold; [|done].
  assert (Hlt : p < length (memory s)) by (by eapply lookup_lt_Some).
  rewrite list_lookup_insert_eq in H by done. simplify_eq. done.
Qed.

(** X5. A successful write through a handle with a payload is seen through
    every handle that compares equal to it and through no other: for each
    handle [h'], [h'.data()] is the new pointer when [h' == h] and is what
    it was before when not. *)
Theorem setChannelData_seen_through_equal_handles_only tid h d s s' evs :
  setChannelData tid h d s = Some (tt, s', evs) →
  m_payload h ≠ nullptr →
  ∀ h', ((h' == h) = true → data h' (memory s') = Some d) ∧
        ((h' == h) = false → data h' (memory s') = data h' (memory s)).
Proof.
  intros H Hnn h'.
  destruct (m_payload h) as [|p] eqn:Hp; [done|].
  destruct (setChannelData_data _ _ _ _ _ _ _ H Hp) as (Hlt & Hmem & _).
  unfold handle_eqb, data. rewrite Hp, Hmem. split.
  - intros Heq. apply bool_decide_eq_true in Heq. rewrite Heq.
    by rewrite list_lookup_insert_eq.
  - intros Hneq. apply bool_decide_eq_false in Hneq.
    destruct (m_payload h') as [|q]; [done|].
    rewrite list_lookup_insert_ne; [done|]. congruence.
Qed.

Lemma setChannelData_seen_through_equal_handles_only_witness :
  data (mkHandle (ptr 0) Save Save)
       (memory (set_memory [CoreInterfacePayloadPrivate.mk (ptr 5); CoreInterfacePayloadPrivate.fresh]
                  two_channels))
  = Some (ptr 5).
Proof.
  apply (setChannelData_seen_through_equal_handles_only 0
           (mkHandle (ptr 0) Float Opacity) (ptr 5) two_channels _
           [] eq_refl); [discriminate | reflexivity].
Defined.

(** X6. A channel remembers the value written to it until it is
    overwritten: after [setChannelData(h, d)] through the handle returned
    by [handle(t, n)], and any further calls that do not write that slot,
    [handle(t, n)] returns a handle whose [data()] is [d]. *)
Theorem channel_remembers_last_write tid t n s h s1 evs1 d s2 evs2 p ops s3 evs3 :
  StringID_isValid t = true → StringID_isValid n = true →
  handle tid t n s = Some (h, s1, evs1) →
  setChannelData tid h d s1 = Some (tt, s2, evs2) →
  m_payload h = ptr p →
  Forall (fun op => writes p op = false) ops →
  run tid ops s2 = Some (s3, evs3) →
  handle tid t n s3 = Some (h, s3, []) ∧ data h (memory s3) = Some d.
Proof.
  intros Ht Hn Hh Hset Hp Hall Hrun.
  pose proof (handle_Some_thread _ _ _ _ _ Hh) as Hth.
  assert (Hslot1 : slot s1 t n = Some h).
  { destruct (handle_cases tid t n s Hth) as [[Hv _]|[(_ & _ & Hs & He)|(_ & _ & He)]].
    - rewrite Ht, Hn in Hv. discriminate.
    - rewrite He in Hh. by simplify_eq.
    - rewrite He in Hh. simplify_eq. apply slot_set_channels_eq. }
  destruct (setChannelData_data _ _ _ _ _ _ _ Hset Hp) as (Hlt & Hmem & Hch & Hth2).
  assert (Hslot2 : slot s2 t n = Some h) by (unfold slot in *; by rewrite Hch).
  assert (Hnn : is_nonnull (m_payload h) = true) by (by rewrite Hp).
  split.
  - apply handle_existing; try done.
    + by rewrite (run_checkThread _ _ _ _ _ Hrun).
    + by eapply run_slot_stable.
  - assert (Hm3 : memory s3 !! p = Some (CoreInterfacePayloadPrivate.mk d)).
    { eapply run_memory_unwritten; [done| |done].
      rewrite Hmem. by apply list_lookup_insert_eq. }
    unfold data. by rewrite Hp, Hm3.
Qed.

Lemma channel_remembers_last_write_witness :
  data (mkHandle (ptr 0) Float Opacity)
       [CoreInterfacePayloadPrivate.mk (ptr 5); CoreInterfacePayloadPrivate.mk (ptr 6)]
  = Some (ptr 5).
Proof.
  apply (channel_remembers_last_write 0 Float Opacity (CoreInterface_new 0 [])
           (mkHandle (ptr 0) Float Opacity) one_channel [] (ptr 5)
           (set_memory [CoreInterfacePayloadPrivate.mk (ptr 5)] one_channel) [] 0
           [OpHandle Float Save; OpSetChannelData (mkHandle (ptr 1) Float Save) (ptr 6)]
           (set_memory [CoreInterfacePayloadPrivate.mk (ptr 5); CoreInterfacePayloadPrivate.mk (ptr 6)]
              two_channels) []);
    try reflexivity; try (vm_compute; reflexivity).
  repeat constructor.
Defined.

(** X7. Channels do not disturb one another: a write through the stored
    handle of one channel leaves the data of every other channel of the
    registry as it was. *)
Theorem channel_write_leaves_other_channels tid s t n h t' n' h' d s' evs :
  reachable tid s →
  slot s t n = Some h → slot s t' n' = Some h' → (t, n) ≠ (t', n') →
  setChannelData tid h d s = Some (tt, s', evs) →
  data h' (memory s') = data h' (memory s) ∧ data h (memory s') = Some d.
Proof.
  intros Hr Hs Hs' Hne Hset.
  destruct (reachable_wf _ _ Hr _ _ _ Hs) as (p & Hp & _).
  destruct (reachable_wf _ _ Hr _ _ _ Hs') as (q & Hq & _).
  destruct (setChannelData_data _ _ _ _ _ _ _ Hset Hp) as (Hlt & Hmem & _).
  unfold data. rewrite Hp, Hq, Hmem. split.
  - rewrite list_lookup_insert_ne; [done|]. intros ->.
    destruct (reachable_inj _ _ Hr _ _ _ _ _ _ Hs Hs') as [-> ->]; [congruence|done].
  - by rewrite list_lookup_insert_eq.
Qed.

Lemma channel_write_leaves_other_channels_witness :
  data (mkHandle (ptr 1) Float Save)
       (memory (set_memory [CoreInterfacePayloadPrivate.mk (ptr 5); CoreInterfacePayloadPrivate.fresh]
                  two_channels))
  = data (mkHandle (ptr 1) Float Save) (memory two_channels).
Proof.
  apply (channel_write_leaves_other_channels 0 two_channels Float Opacity
           (mkHandle (ptr 0) Float Opacity) Float Save (mkHandle (ptr 1) Float Save)
           (ptr 5) _ []).
  - exists [], [OpHandle Float Opacity; OpHandle Float Save], []. vm_compute. reflexivity.
  - vm_compute. reflexivity.
  - vm_compute. reflexivity.
  - discriminate.
  - reflexivity.
Defined.

(* ===================================================================== *)
(** ** Saving and loading bindings *)

Lemma StringID_isValid_of_string str :
  StringID_isValid (StringID_of_string str) = true ↔ str ≠ EmptyString.
Proof. unfold StringID_isValid. simpl. apply bool_decide_eq_true. Qed.

(** X9. [loadState] never fails on the owner thread, whatever the document
    is.  The handle it assigns is valid exactly when the document has
    non-empty string members ["typeID"] and ["nameID"]; otherwise the handle
    is the default-constructed one, no channel is created and no listener
    is called. *)
Theorem loadState_valid_iff_both_members tid j s :
  reachable tid s →
  ∃ h s' evs,
    loadState tid j s = Some (h, s', evs) ∧
    (isValid h = true ↔
       TPJSONString j "typeID" ≠ EmptyString ∧ TPJSONString j "nameID" ≠ EmptyString) ∧
    (isValid h = false → h = CoreInterfaceHandle_default ∧ s' = s ∧ evs = []).
Proof.
  intros Hr.
  pose proof (reachable_checkThread _ _ Hr) as Hth.
  unfold loadState.
  pose proof (StringID_isValid_of_string (TPJSONString j "typeID")) as Hit.
  pose proof (StringID_isValid_of_string (TPJSONString j "nameID")) as Hin.
  revert Hit Hin.
  generalize (StringID_of_string (TPJSONString j "typeID")) as t.
  generalize (StringID_of_string (TPJSONString j "nameID")) as n.
  intros n t Hit Hin.
  destruct (handle_cases tid t n s Hth) as [[Hv He]|[(Hv & _ & Hs & He)|(Hv & _ & He)]].
  - eexists _, _, _. split; [exact He|]. rewrite <- Hit, <- Hin. split; [|done].
    split; [done|]. intros [Ht Hn]. rewrite Ht, Hn in Hv. discriminate.
  - eexists _, _, _. split; [exact He|]. rewrite <- Hit, <- Hin.
    destruct (reachable_wf _ _ Hr _ _ _ Hs) as (p & _ & _ & Hkt & Hkn & Hvt & Hvn).
    unfold isValid. rewrite Hkt, Hkn, Hvt, Hvn. simpl. split; [done|]. done.
  - eexists _, _, _. split; [exact He|]. rewrite <- Hit, <- Hin.
    apply andb_true_iff in Hv as [Hvt Hvn].
    unfold isValid. simpl. rewrite Hvt, Hvn. simpl. split; [done|]. done.
Qed.

Lemma loadState_valid_iff_both_members_witness :
  ∃ h s' evs,
    loadState 0 (JObject [("typeID"%string, JString "Float"); ("nameID"%string, JNumber 3)])
      one_channel = Some (h, s', evs) ∧
    (isValid h = false → h = CoreInterfaceHandle_default ∧ s' = one_channel ∧ evs = []).
Proof.
  destruct (loadState_valid_iff_both_members 0
              (JObject [("typeID"%string, JString "Float"); ("nameID"%string, JNumber 3)])
              one_channel) as (h & s' & evs & Hl & _ & Hinv).
  - exists [], [OpHandle Float Opacity], []. reflexivity.
  - exists h, s', evs. split; [exact Hl | exact Hinv].
Defined.

Lemma fields_lookup_assign_eq key v fields :
  fields_lookup key (fields_assign key v fields) = Some v.
Proof.
  induction fields as [|[k w] rest IH]; simpl.
  - by rewrite decide_True.
  - destruct (decide (k = key)) as [->|Hne]; simpl.
    + by rewrite decide_True.
    + by rewrite decide_False.
Qed.

Lemma fields_lookup_assign_ne key key' v fields :
  key ≠ key' →
  fields_lookup key' (fields_assign key v fields) = fields_lookup key' fields.
Proof.
  intros Hne. induction fields as [|[k w] rest IH]; simpl.
  - by rewrite decide_False.
  - destruct (decide (k = key)) as [->|Hk]; simpl.
    + by rewrite !decide_False.
    + destruct (decide (k = key')); [done|]. exact IH.
Qed.

(** On a null document or an object, [saveState(j)] gives an object with
    the two members set and the others kept. *)
Lemma saveState_into_members h j fields :
  j = JNull ∧ fields = [] ∨ j = JObject fields →
  ∃ fields',
    saveState_into h j = Some (JObject fields') ∧
    fields_lookup "typeID" fields' = Some (JString (toString (typeID h))) ∧
    fields_lookup "nameID" fields' = Some (JString (toString (nameID h))) ∧
    ∀ key, key ≠ "typeID"%string → key ≠ "nameID"%string →
           fields_lookup key fields' = fields_lookup key fields.
Proof.
  intros [[-> ->]| ->]; unfold saveState_into; simpl; eexists; (split; [done|]).
  - simpl. split; [done|]. split; [done|]. intros key H1 H2.
    rewrite !decide_False by done. done.
  - split.
    { rewrite fields_lookup_assign_ne by done. apply fields_lookup_assign_eq. }
    split; [apply fields_lookup_assign_eq|].
    intros key H1 H2. by rewrite !fields_lookup_assign_ne.
Qed.

(** X10. [saveState(j)], the form that writes into a document of the
    caller, fails exactly when the document is neither null nor an object.
    On a null document or an object it stores the two keys of the handle
    under ["typeID"] and ["nameID"], replacing earlier values, and keeps
    every other member; [loadState] of the result is [handle(h.typeID(),
    h.nameID())]. *)
Theorem saveState_into_keeps_other_members h j :
  (saveState_into h j = None ↔ j ≠ JNull ∧ ∀ fields, j ≠ JObject fields) ∧
  (∀ fields, j = JNull ∧ fields = [] ∨ j = JObject fields →
     ∃ fields',
       saveState_into h j = Some (JObject fields') ∧
       TPJSONString (JObject fields') "typeID" = toString (typeID h) ∧
       TPJSONString (JObject fields') "nameID" = toString (nameID h) ∧
       (∀ key, key ≠ "typeID"%string → key ≠ "nameID"%string →
               fields_lookup key fields' = fields_lookup key fields) ∧
       ∀ tid s, loadState tid (JObject fields') s = handle tid (typeID h) (nameID h) s).
Proof.
  split.
  - destruct j as [|b|z|str|fields]; unfold saveState_into; simpl.
    + split; [done | intros [H _]; done].
    + split; [intros _; split; [done | intros f; done] | done].
    + split; [intros _; split; [done | intros f; done] | done].
    + split; [intros _; split; [done | intros f; done] | done].
    + split; [done | intros [_ H]; by destruct (H fields)].
  - intros fields Hj.
    destruct (saveState_into_members h j fields Hj) as (fields' & Hs & Ht & Hn & Hothers).
    exists fields'. split; [done|].
    assert (Htt : TPJSONString (JObject fields') "typeID" = toString (typeID h))
      by (simpl; by rewrite Ht).
    assert (Hnn : TPJSONString (JObject fields') "nameID" = toString (nameID h))
      by (simpl; by rewrite Hn).
    split; [done|]. split; [done|]. split; [done|].
    intros tid s. unfold loadState. rewrite Htt, Hnn.
    by rewrite !StringID_of_toString.
Qed.

Lemma saveState_into_keeps_other_members_witness :
  ∃ fields',
    saveState_into (mkHandle (ptr 0) Float Opacity)
      (JObject [("nameID"%string, JString "Old"); ("colour"%string, JString "red")])
    = Some (JObject fields') ∧
    TPJSONString (JObject fields') "nameID" = "Opacity"%string ∧
    fields_lookup "colour" fields' = Some (JString "red").
Proof.
  destruct (saveState_into_keeps_other_members (mkHandle (ptr 0) Float Opacity)
              (JObject [("nameID"%string, JString "Old"); ("colour"%string, JString "red")]))
    as [_ Hok].
  destruct (Hok [("nameID"%string, JString "Old"); ("colour"%string, JString "red")])
    as (fields' & Hs & _ & Hn & Hothers & _).
  - right. reflexivity.
  - exists fields'. split; [exact Hs|]. split; [exact Hn|].
    rewrite (Hothers "colour"%string); [reflexivity | discriminate | discriminate].
Defined.

(* ===================================================================== *)
(** ** Ownership of the data handed to [setChannelData] *)

Lemma deleted_app evs1 evs2 : deleted (evs1 ++ evs2) = deleted evs1 ++ deleted evs2.
Proof. unfold deleted. apply bind_app. Qed.

Lemma deleted_invokeAll callbacks args : deleted (invokeAll callbacks args) = [].
Proof. induction callbacks as [|c cs IH]; [done|]. exact IH. Qed.

Lemma deleted_delete d : deleted (delete_ d) = pointee d.
Proof. by destruct d. Qed.

Lemma held_app mem1 mem2 : held (mem1 ++ mem2) = held mem1 ++ held mem2.
Proof. unfold held. apply bind_app. Qed.

Lemma held_cons pl mem :
  held (pl :: mem) = pointee (CoreInterfacePayloadPrivate.data pl) ++ held mem.
Proof. reflexivity. Qed.

Lemma held_insert mem p old d :
  mem !! p = Some old →
  held mem ++ pointee d ≡ₚ
  pointee (CoreInterfacePayloadPrivate.data old) ++
  held (<[p := CoreInterfacePayloadPrivate.mk d]> mem).
Proof.
  intros Hold.
  assert (Hlt : p < length mem) by (by eapply lookup_lt_Some).
  rewrite insert_take_drop by done.
  rewrite <- (take_drop_middle mem p old Hold) at 1.
  rewrite !held_app, !held_cons. simpl.
  set (a := held (take p mem)). set (b := held (drop (S p) mem)).
  set (x := pointee (CoreInterfacePayloadPrivate.data old)). set (y := pointee d).
  rewrite (Permutation_app_comm a (x ++ b)).
  rewrite <- !app_assoc.
  apply Permutation_app_head.
  rewrite (Permutation_app_comm a (y ++ b)).
  rewrite <- !app_assoc.
  rewrite (Permutation_app_comm y (b ++ a)).
  by rewrite <- !app_assoc.
Qed.

Lemma step_conserves_data tid op s s' evs :
  step tid op s = Some (s', evs) →
  held (memory s) ++ handed_over [op] ≡ₚ deleted evs ++ held (memory s').
Proof.
  intros H. unfold handed_over. simpl. rewrite (app_nil_r (match op with OpSetChannelData _ d => pointee d | _ => [] end)).
  assert (Hhandle : ∀ t n h0 s1 e1, handle tid t n s = Some (h0, s1, e1) →
            held (memory s) ++ [] ≡ₚ deleted e1 ++ held (memory s1)).
  { intros t n h0 s1 e1 Hh.
    pose proof (handle_Some_thread _ _ _ _ _ Hh) as Hth.
    destruct (handle_cases tid t n s Hth) as [[_ He]|[(_ & _ & _ & He)|(_ & _ & He)]];
      rewrite He in Hh; simplify_eq; simpl; rewrite ?app_nil_r; try done.
    by rewrite deleted_invokeAll, held_app, app_nil_r. }
  destruct op; simpl in H; unfold loadState in H;
    try (destruct (handle _ _ _ _) as [[[h0 s1] e1]|] eqn:Hh; simpl in H; simplify_eq;
         by eapply Hhandle).
  - (* setChannelData *)
    unfold setChannelData, effect in H.
    destruct (checkThread tid s); simpl in H; [|done].
    destruct (m_payload h) as [|p] eqn:Hp.
    + simplify_eq. rewrite deleted_delete. apply Permutation_app_comm.
    + destruct (memory s !! p) as [old|] eqn:Hold; [|done].
      assert (Hlt : p < length (memory s)) by (by eapply lookup_lt_Some).
      rewrite list_lookup_insert_eq in H by done. simplify_eq. simpl.
      rewrite deleted_app, deleted_delete, deleted_invokeAll, app_nil_r.
      by apply held_insert.
  - step_inv H. by rewrite deleted_invokeAll, app_nil_r.
  - step_inv H. by rewrite app_nil_r.
  - step_inv H; by rewrite app_nil_r.
  - simplify_eq. by rewrite app_nil_r.
  - simplify_eq. by rewrite app_nil_r.
  - simplify_eq. by rewrite app_nil_r.
  - simplify_eq. by rewrite app_nil_r.
Qed.

Lemma run_conserves_data tid ops s s' evs :
  run tid ops s = Some (s', evs) →
  held (memory s) ++ handed_over ops ≡ₚ deleted evs ++ held (memory s').
Proof.
  revert s s' evs.
  induction ops as [|op ops IH]; intros s s' evs H; simpl in H.
  - simplify_eq. simpl. by rewrite app_nil_r.
  - destruct (step tid op s) as [[s1 e1]|] eqn:H1; [|done].
    destruct (run tid ops s1) as [[s2 e2]|] eqn:H2; [|done].
    simplify_eq.
    change (handed_over (op :: ops)) with (handed_over ([op] ++ ops)).
    unfold handed_over at 1. rewrite bind_app.
    fold (handed_over [op]). fold (handed_over ops).
    rewrite app_assoc, (step_conserves_data _ _ _ _ _ H1).
    rewrite <- app_assoc, (IH _ _ _ H2).
    by rewrite deleted_app, app_assoc.
Qed.

(** X11. The registry owns what it is handed: over any history, the data
    objects held by the payloads at the start together with those handed
    to [setChannelData] are, counted with multiplicity, the ones destroyed
    during the history together with the ones the payloads hold at its
    end.  So when no object is handed over twice, none is destroyed twice
    and no payload holds a destroyed object. *)
Theorem handed_over_data_is_held_or_destroyed tid ops s s' evs :
  run tid ops s = Some (s', evs) →
  held (memory s) ++ handed_over ops ≡ₚ deleted evs ++ held (memory s') ∧
  (NoDup (held (memory s) ++ handed_over ops) →
   NoDup (deleted evs ++ held (memory s'))).
Proof.
  intros Hrun. pose proof (run_conserves_data _ _ _ _ _ Hrun) as Hperm.
  split; [done|]. intros Hnd. by rewrite <- Hperm.
Qed.

Lemma handed_over_data_is_held_or_destroyed_witness :
  [] ++ handed_over
          [OpHandle Float Opacity;
           OpSetChannelData (mkHandle (ptr 0) Float Opacity) (ptr 5);
           OpSetChannelData CoreInterfaceHandle_default (ptr 6);
           OpSetChannelData (mkHandle (ptr 0) Float Opacity) (ptr 8)]
  ≡ₚ deleted [EvDelete 6; EvDelete 5] ++ held [CoreInterfacePayloadPrivate.mk (ptr 8)].
Proof.
  apply (handed_over_data_is_held_or_destroyed 0
           [OpHandle Float Opacity;
            OpSetChannelData (mkHandle (ptr 0) Float Opacity) (ptr 5);
            OpSetChannelData CoreInterfaceHandle_default (ptr 6);
            OpSetChannelData (mkHandle (ptr 0) Float Opacity) (ptr 8)]
           (CoreInterface_new 0 [])
           (set_memory [CoreInterfacePayloadPrivate.mk (ptr 8)] one_channel)
           [EvDelete 6; EvDelete 5]).
  vm_compute. reflexivity.
Defined.

(** X8. A write through a handle a client can hold is safe as long as no
    data object is handed over twice: after any history on a new registry
    in which the objects handed to [setChannelData], the new one included,
    are all different (and different from those the payloads held at the
    start), [setChannelData] on the owner thread through a
    default-constructed handle, a handle returned by [handle] or
    [loadState], or a copy of one, returns; the payload pointer it follows
    points at a payload, what the call destroys had not been destroyed
    before, no object has been destroyed twice, no payload holds a
    destroyed object afterwards, and the handle can be used again. *)
Theorem setChannelData_safe_through_client_handles tid mem ops s evs h d :
  run tid ops (CoreInterface_new tid mem) = Some (s, evs) →
  obtainable tid s h →
  NoDup (held mem ++ handed_over ops ++ pointee d) →
  ∃ s' evs',
    setChannelData tid h d s = Some (tt, s', evs') ∧
    obtainable tid s' h ∧
    (∀ p, m_payload h = ptr p → is_Some (memory s !! p)) ∧
    (∀ a, a ∈ deleted evs' → a ∉ deleted evs) ∧
    NoDup (deleted (evs ++ evs') ++ held (memory s')).
Proof.
  intros Hrun Hob Hnd.
  assert (Hsome : (∃ s' evs', setChannelData tid h d s = Some (tt, s', evs')) ∧
                  ∀ p, m_payload h = ptr p → is_Some (memory s !! p)).
  { apply obtainable_cases in Hob as [Hr [->|[(p & Hp & Hlt & _) _]]];
      pose proof (reachable_checkThread _ _ Hr) as Hth;
      unfold setChannelData; rewrite Hth; simpl.
    - split; [by eexists _, _ | done].
    - rewrite Hp. destruct (lookup_lt_is_Some_2 (memory s) p Hlt) as [pl Hpl].
      rewrite Hpl. rewrite list_lookup_insert_eq by done.
      split; [by eexists _, _|]. intros q [= <-]. by eexists. }
  destruct Hsome as [(s' & evs' & Hset) Hpayload]. exists s', evs'. split; [done|].
  assert (Hstep : step tid (OpSetChannelData h d) s = Some (s', evs'))
    by (simpl; by rewrite Hset).
  split; [by apply (obtain_kept tid s h (OpSetChannelData h d) s' evs' Hob)|].
  split; [done|].
  pose proof (run_conserves_data _ _ _ _ _ Hrun) as Hbefore. simpl in Hbefore.
  pose proof (step_conserves_data _ _ _ _ _ Hstep) as Hnow.
  change (handed_over [OpSetChannelData h d]) with (pointee d ++ []) in Hnow.
  rewrite app_nil_r in Hnow.
  assert (Hall : held mem ++ handed_over ops ++ pointee d ≡ₚ
                 deleted (evs ++ evs') ++ held (memory s')).
  { rewrite app_assoc, Hbefore, <- app_assoc, Hnow, deleted_app.
    by rewrite app_assoc. }
  assert (Hnd' : NoDup (deleted (evs ++ evs') ++ held (memory s')))
    by (by rewrite <- Hall).
  split; [|done].
  intros a Ha Hin. rewrite deleted_app, <- app_assoc in Hnd'.
  apply NoDup_app in Hnd' as (_ & Hdisj & _).
  apply (Hdisj a Hin). apply elem_of_app. by left.
Qed.

Lemma setChannelData_safe_through_client_handles_witness :
  ∃ s' evs',
    setChannelData 0 (mkHandle (ptr 0) Float Opacity) (ptr 8)
      (set_memory [CoreInterfacePayloadPrivate.mk (ptr 5)] one_channel)
    = Some (tt, s', evs') ∧
    NoDup (deleted ([] ++ evs') ++ held (memory s')).
Proof.
  destruct (setChannelData_safe_through_client_handles 0 []
              [OpHandle Float Opacity;
               OpSetChannelData (mkHandle (ptr 0) Float Opacity) (ptr 5)]
              (set_memory [CoreInterfacePayloadPrivate.mk (ptr 5)] one_channel) []
              (mkHandle (ptr 0) Float Opacity) (ptr 8))
    as (s' & evs' & Hset & _ & _ & _ & Hnd).
  - vm_compute. reflexivity.
  - apply (obtain_kept 0 one_channel _
             (OpSetChannelData (mkHandle (ptr 0) Float Opacity) (ptr 5)) _ []).
    + apply (obtain_handle 0 (CoreInterface_new 0 []) Float Opacity _ _
               (invokeAll [] ChannelListChangedArgs)).
      * exists [], [], []. reflexivity.
      * vm_compute. reflexivity.
    + vm_compute. reflexivity.
  - refine (bool_decide_eq_true_1 _ _); vm_compute; reflexivity.
  - exists s', evs'. split; [exact Hset | exact Hnd].
Defined.

(* ===================================================================== *)
(** ** Destroying the registry *)

Lemma elem_of_stored_handles s h :
  h ∈ stored_handles s ↔ ∃ t n, slot s t n = Some h.
Proof.
  unfold stored_handles. rewrite list_elem_of_bind. split.
  - intros ([t inner] & Hin & Hout). simpl in Hin.
    apply list_elem_of_fmap in Hin as ([n h'] & -> & Hin). simpl.
    apply elem_of_map_to_list in Hin. apply elem_of_map_to_list in Hout.
    exists t, n. apply slot_Some. by exists inner.
  - intros (t & n & Hs). apply slot_Some in Hs as (inner & Hout & Hin).
    exists (t, inner). split.
    + simpl. apply list_elem_of_fmap. exists (n, h). split; [done|].
      by apply elem_of_map_to_list.
    + by apply elem_of_map_to_list.
Qed.

Lemma elem_of_payload_addrs handles a :
  a ∈ payload_addrs handles ↔ ∃ h, h ∈ handles ∧ m_payload h = ptr a.
Proof.
  unfold payload_addrs. rewrite list_elem_of_bind. split.
  - intros (h & Hin & Hh). exists h. split; [done|].
    destruct (m_payload h) as [|b]; simpl in Hin.
    + by apply elem_of_nil in Hin.
    + apply list_elem_of_singleton in Hin. by subst.
  - intros (h & Hh & Hp). exists h. split; [|done].
    rewrite Hp. simpl. by apply list_elem_of_singleton.
Qed.

Lemma NoDup_stored_handles s : channels_inj s → NoDup (stored_handles s).
Proof.
  intros Hinj. unfold stored_handles. apply NoDup_bind.
  - intros [t1 i1] [t2 i2] h H1 H2 Hh1 Hh2. simpl in *.
    apply elem_of_map_to_list in H1. apply elem_of_map_to_list in H2.
    apply list_elem_of_fmap in Hh1 as ([n1 h1] & -> & Hh1).
    apply list_elem_of_fmap in Hh2 as ([n2 h2] & Heq & Hh2). simpl in *. subst h2.
    apply elem_of_map_to_list in Hh1. apply elem_of_map_to_list in Hh2.
    assert (Hs1 : slot s t1 n1 = Some h1) by (apply slot_Some; by exists i1).
    assert (Hs2 : slot s t2 n2 = Some h1) by (apply slot_Some; by exists i2).
    destruct (Hinj _ _ _ _ _ _ Hs1 Hs2 eq_refl) as [-> _]. congruence.
  - intros [t inner] Hin. simpl. apply elem_of_map_to_list in Hin.
    apply NoDup_fmap_2_strong; [|apply NoDup_map_to_list].
    intros [n1 h1] [n2 h2] H1 H2 Heq. simpl in Heq. subst h2.
    apply elem_of_map_to_list in H1. apply elem_of_map_to_list in H2.
    assert (Hs1 : slot s t n1 = Some h1) by (apply slot_Some; by exists inner).
    assert (Hs2 : slot s t n2 = Some h1) by (apply slot_Some; by exists inner).
    destruct (Hinj _ _ _ _ _ _ Hs1 Hs2 eq_refl) as [_ ->]. done.
  - apply NoDup_map_to_list.
Qed.

Lemma NoDup_payload_addrs_stored s :
  channels_inj s → NoDup (payload_addrs (stored_handles s)).
Proof.
  intros Hinj. unfold payload_addrs. apply NoDup_bind.
  - intros h1 h2 a H1 H2 Ha1 Ha2.
    apply elem_of_stored_handles in H1 as (t1 & n1 & Hs1).
    apply elem_of_stored_handles in H2 as (t2 & n2 & Hs2).
    assert (Hp1 : m_payload h1 = ptr a).
    { destruct (m_payload h1); simpl in Ha1;
        [by apply elem_of_nil in Ha1 | apply list_elem_of_singleton in Ha1; by subst]. }
    assert (Hp2 : m_payload h2 = ptr a).
    { destruct (m_payload h2); simpl in Ha2;
        [by apply elem_of_nil in Ha2 | apply list_elem_of_singleton in Ha2; by subst]. }
    destruct (Hinj _ _ _ _ _ _ Hs1 Hs2) as [-> ->]; congruence.
  - intros h _. destruct (m_payload h); simpl; [apply NoDup_nil_2 | apply NoDup_singleton].
  - by apply NoDup_stored_handles.
Qed.

(** The destructor loop succeeds on handles with distinct, allocated,
    not yet freed payloads; it frees them in order and destroys what each
    holds. *)
Lemma delete_payloads_ok mem handles freed :
  NoDup (freed ++ payload_addrs handles) →
  (∀ a, a ∈ payload_addrs handles → a < length mem) →
  ∃ evs,
    delete_payloads mem freed handles = Some (freed ++ payload_addrs handles, evs) ∧
    deleted evs = payload_addrs handles ≫= data_at mem ∧
    ∀ c args, EvCall c args ∉ evs.
Proof.
  revert freed. induction handles as [|h rest IH]; intros freed Hnd Hlt; simpl.
  - exists []. rewrite app_nil_r. split; [done|]. split; [done|].
    intros c args H. by apply elem_of_nil in H.
  - unfold payload_addrs in *. rewrite bind_cons in Hnd, Hlt.
    destruct (m_payload h) as [|a] eqn:Hp; simpl in *.
    + by apply IH.
    + assert (Ha : a ∉ freed).
      { apply NoDup_app in Hnd as (_ & Hdisj & _). intros Hin.
        apply (Hdisj a Hin). by left. }
      rewrite decide_False by done.
      assert (Halt : a < length mem) by (apply Hlt; by left).
      destruct (lookup_lt_is_Some_2 mem a Halt) as [pl Hpl]. rewrite Hpl.
      destruct (IH (freed ++ [a])) as (evs & He & Hd & Hc).
      { by rewrite <- app_assoc. }
      { intros b Hb. apply Hlt. by right. }
      rewrite He. eexists. split; [by rewrite <- app_assoc|]. split.
      * rewrite deleted_app, deleted_delete, Hd. unfold data_at at 2. by rewrite Hpl.
      * intros c args Hin. apply elem_of_app in Hin as [Hin|Hin]; [|by eapply Hc].
        destruct (CoreInterfacePayloadPrivate.data pl); simpl in Hin;
          [by apply elem_of_nil in Hin | by apply list_elem_of_singleton in Hin].
Qed.

(** A call either allocates nothing and leaves the table as it is, or
    allocates one payload, at the next free address, for one entry that
    had none. *)
Lemma step_alloc_cases tid op s s' evs :
  step tid op s = Some (s', evs) →
  (length (memory s') = length (memory s) ∧ ∀ t n, slot s' t n = slot s t n) ∨
  (∃ t n, memory s' = memory s ++ [CoreInterfacePayloadPrivate.fresh] ∧
          (∀ h, slot s t n = Some h → m_payload h = nullptr) ∧
          slot s' t n = Some (mkHandle (ptr (length (memory s))) t n) ∧
          ∀ t' n', (t, n) ≠ (t', n') → slot s' t' n' = slot s t' n').
Proof.
  intros H.
  assert (Hhandle : ∀ t n h0 s1 e1, handle tid t n s = Some (h0, s1, e1) →
    (length (memory s1) = length (memory s) ∧ ∀ t n, slot s1 t n = slot s t n) ∨
    (∃ t n, memory s1 = memory s ++ [CoreInterfacePayloadPrivate.fresh] ∧
            (∀ h, slot s t n = Some h → m_payload h = nullptr) ∧
            slot s1 t n = Some (mkHandle (ptr (length (memory s))) t n) ∧
            ∀ t' n', (t, n) ≠ (t', n') → slot s1 t' n' = slot s t' n')).
  { intros t n h0 s1 e1 Hh.
    pose proof (handle_Some_thread _ _ _ _ _ Hh) as Hth.
    destruct (handle_cases tid t n s Hth) as [[_ He]|[(_ & _ & _ & He)|(_ & Hnull & He)]];
      rewrite He in Hh; simplify_eq; [by left | by left |].
    right. exists t, n. split; [done|]. split.
    { intros h Hs. by rewrite localHandle_of_slot, Hs in Hnull. }
    split; [apply slot_set_channels_eq|].
    intros t' n' Hne. by apply slot_set_channels_ne. }
  destruct op; simpl in H; unfold loadState in H;
    try (destruct (handle _ _ _ _) as [[[h0 s1] e1]|] eqn:Hh; simpl in H; simplify_eq;
         by eapply Hhandle);
    left; step_inv H; rewrite ?length_insert; done.
Qed.

(** The payloads of the table are exactly those allocated since the
    registry was constructed. *)
Lemma run_owned_range tid mem0 ops s evs :
  run tid ops (CoreInterface_new tid mem0) = Some (s, evs) →
  ∀ a, a ∈ payload_addrs (stored_handles s) ↔
       length mem0 ≤ a < length (memory s).
Proof.
  intros Hrun.
  cut (length mem0 ≤ length (memory s) ∧
       ∀ a, (∃ t n h, slot s t n = Some h ∧ m_payload h = ptr a) ↔
            length mem0 ≤ a < length (memory s)).
  { intros [_ Hinv] a. rewrite elem_of_payload_addrs, <- Hinv. split.
    - intros (h & Hin & Hp). apply elem_of_stored_handles in Hin as (t & n & Hs).
      by exists t, n, h.
    - intros (t & n & h & Hs & Hp). exists h. split; [|done].
      apply elem_of_stored_handles. by exists t, n. }
  eapply (run_preserves
            (fun x => length mem0 ≤ length (memory x) ∧
                      ∀ a, (∃ t n h, slot x t n = Some h ∧ m_payload h = ptr a) ↔
                           length mem0 ≤ a < length (memory x))); [| |exact Hrun].
  - intros op s0 s1 e1 [Hlen Hinv] Hstep.
    destruct (step_alloc_cases _ _ _ _ _ Hstep)
      as [[Hl Hsl]|(t & n & Hm & Hnone & Hnew & Hold)].
    + split; [lia|]. intros a. rewrite Hl, <- Hinv. split.
      * intros (t & n & h & Hs & Hp). rewrite Hsl in Hs. by exists t, n, h.
      * intros (t & n & h & Hs & Hp). rewrite <- Hsl in Hs. by exists t, n, h.
    + rewrite Hm, length_app. simpl. split; [lia|]. intros a. split.
      * intros (t' & n' & h & Hs & Hp).
        destruct (decide ((t, n) = (t', n'))) as [[= <- <-]|Hne].
        -- rewrite Hnew in Hs. simplify_eq. simpl in Hp. simplify_eq. lia.
        -- rewrite (Hold _ _ Hne) in Hs.
           assert (length mem0 ≤ a < length (memory s0)); [|lia].
           apply Hinv. by exists t', n', h.
      * intros Ha. destruct (decide (a = length (memory s0))) as [->|Hna].
        -- by exists t, n, (mkHandle (ptr (length (memory s0))) t n).
        -- assert (Hold' : length mem0 ≤ a < length (memory s0)) by lia.
           apply Hinv in Hold' as (t' & n' & h & Hs & Hp).
           exists t', n', h. split; [|done].
           rewrite Hold; [done|]. intros [= <- <-].
           rewrite (Hnone _ Hs) in Hp. discriminate.
  - simpl. split; [lia|]. intros a. split; [|lia].
    intros (t & n & h & Hs & _). unfold slot in Hs. simpl in Hs.
    by rewrite lookup_empty in Hs.
Qed.

Lemma bind_Permutation {A B} (f : A → list B) (l k : list A) :
  l ≡ₚ k → l ≫= f ≡ₚ k ≫= f.
Proof.
  induction 1 as [|x l k _ IH|x y l|l k m _ IH1 _ IH2].
  - done.
  - rewrite !bind_cons. by rewrite IH.
  - rewrite !bind_cons, !app_assoc. apply Permutation_app_tail, Permutation_app_comm.
  - by rewrite IH1.
Qed.

Lemma held_seq mem : seq 0 (length mem) ≫= data_at mem = held mem.
Proof.
  induction mem as [|pl mem IH] using rev_ind; [done|].
  rewrite length_app. change (length [pl]) with 1.
  rewrite Nat.add_1_r, seq_S, bind_app, held_app.
  f_equal.
  - rewrite <- IH. apply Forall_bind_ext. apply Forall_seq. intros a Ha.
    unfold data_at. rewrite lookup_app_l by lia. done.
  - simpl. unfold data_at. rewrite list_lookup_middle by done. done.
Qed.

Lemma held_drop_seq mem l0 :
  seq l0 (length mem - l0) ≫= data_at mem = held (drop l0 mem).
Proof.
  rewrite <- (held_seq (drop l0 mem)), length_drop.
  rewrite <- (Nat.add_0_r l0) at 1. rewrite <- fmap_add_seq, list_fmap_bind.
  apply Forall_bind_ext. apply Forall_seq. intros a Ha. simpl.
  unfold data_at. by rewrite lookup_drop.
Qed.

(** What the destructor does to a registry in a reachable state. *)
Lemma destructor_result tid mem0 ops s evs :
  run tid ops (CoreInterface_new tid mem0) = Some (s, evs) →
  ∃ freed devs,
    CoreInterface_destructor tid s = Some (freed, devs) ∧
    freed ≡ₚ seq (length mem0) (length (memory s) - length mem0) ∧
    deleted devs ≡ₚ held (drop (length mem0) (memory s)) ∧
    ∀ c args, EvCall c args ∉ devs.
Proof.
  intros Hrun.
  assert (Hr : reachable tid s) by (by exists mem0, ops, evs).
  pose proof (run_owned_range _ _ _ _ _ Hrun) as Hrange.
  pose proof (NoDup_payload_addrs_stored s (reachable_inj _ _ Hr)) as Hnd.
  destruct (delete_payloads_ok (memory s) (stored_handles s) []) as (devs & Hd & Hdel & Hc).
  { done. }
  { intros a Ha. apply Hrange in Ha. lia. }
  simpl in Hd.
  assert (Hperm : payload_addrs (stored_handles s) ≡ₚ
                  seq (length mem0) (length (memory s) - length mem0)).
  { apply NoDup_Permutation; [done | apply NoDup_seq|].
    intros a. rewrite Hrange, elem_of_seq.
    pose proof (run_memory_length _ _ _ _ _ Hrun) as Hlen. simpl in Hlen. lia. }
  exists (payload_addrs (stored_handles s)), devs.
  unfold CoreInterface_destructor. rewrite (reachable_checkThread _ _ Hr). simpl.
  split; [done|]. split; [done|]. split; [|done].
  rewrite Hdel, <- held_drop_seq. by apply bind_Permutation.
Qed.

(** X12. Destroying a registry on its owner thread is safe as long as no
    data object was handed over twice: after any history on a new registry
    in which the objects handed to [setChannelData] are all different (and
    different from those the payloads held at the start), the destructor
    returns; it frees every payload allocated since the registry was
    constructed, each exactly once, destroys the data those payloads hold,
    calls no listener, and no data object has been destroyed twice, by the
    destructor or earlier. *)
Theorem destructor_frees_every_payload_once tid mem0 ops s evs :
  run tid ops (CoreInterface_new tid mem0) = Some (s, evs) →
  NoDup (held mem0 ++ handed_over ops) →
  ∃ freed devs,
    CoreInterface_destructor tid s = Some (freed, devs) ∧
    NoDup freed ∧
    (∀ a, a ∈ freed ↔ length mem0 ≤ a < length (memory s)) ∧
    deleted devs ≡ₚ held (drop (length mem0) (memory s)) ∧
    (∀ c args, EvCall c args ∉ devs) ∧
    NoDup (deleted (evs ++ devs)).
Proof.
  intros Hrun Hnd.
  destruct (destructor_result _ _ _ _ _ Hrun) as (freed & devs & Hd & Hperm & Hdel & Hc).
  exists freed, devs. split; [done|]. split.
  { rewrite Hperm. apply NoDup_seq. }
  split.
  { intros a. rewrite Hperm, elem_of_seq.
    pose proof (run_memory_length _ _ _ _ _ Hrun) as Hlen. simpl in Hlen. lia. }
  split; [done|]. split; [done|].
  pose proof (run_conserves_data _ _ _ _ _ Hrun) as Hcons. simpl in Hcons.
  rewrite Hcons in Hnd.
  rewrite <- (take_drop (length mem0) (memory s)), held_app in Hnd.
  rewrite deleted_app, Hdel.
  rewrite (Permutation_app_comm (held (take _ _))), app_assoc in Hnd.
  by apply NoDup_app in Hnd as (Hnd & _).
Qed.

Lemma destructor_frees_every_payload_once_witness :
  ∃ freed devs,
    CoreInterface_destructor 0
      (set_memory [CoreInterfacePayloadPrivate.mk (ptr 5); CoreInterfacePayloadPrivate.mk (ptr 6)]
         two_channels)
    = Some (freed, devs) ∧ NoDup freed ∧ NoDup (deleted ([] ++ devs)).
Proof.
  destruct (destructor_frees_every_payload_once 0 []
              [OpHandle Float Opacity; OpHandle Float Save;
               OpSetChannelData (mkHandle (ptr 0) Float Opacity) (ptr 5);
               OpSetChannelData (mkHandle (ptr 1) Float Save) (ptr 6)]
              (set_memory [CoreInterfacePayloadPrivate.mk (ptr 5);
                           CoreInterfacePayloadPrivate.mk (ptr 6)]
                 two_channels) [])
    as (freed & devs & Hd & Hnd & _ & _ & _ & Hnd2).
  - vm_compute. reflexivity.
  - refine (bool_decide_eq_true_1 _ _); vm_compute; reflexivity.
  - exists freed, devs. split; [exact Hd|]. split; [exact Hnd | exact Hnd2].
Defined.

(** X13. Over the life of a registry that starts with an empty payload
    store, the data objects destroyed, during its use and by its
    destructor, are exactly the ones that were handed to
    [setChannelData], each as often as it was handed over: none leaks and
    none is destroyed that was not handed over. *)
Theorem every_handed_over_object_is_destroyed tid ops s evs :
  run tid ops (CoreInterface_new tid []) = Some (s, evs) →
  ∃ freed devs,
    CoreInterface_destructor tid s = Some (freed, devs) ∧
    deleted (evs ++ devs) ≡ₚ handed_over ops.
Proof.
  intros Hrun.
  destruct (destructor_result _ _ _ _ _ Hrun) as (freed & devs & Hd & _ & Hdel & _).
  exists freed, devs. split; [done|].
  pose proof (run_conserves_data _ _ _ _ _ Hrun) as Hcons. simpl in Hcons.
  rewrite deleted_app, Hdel. simpl. by rewrite drop_0, <- Hcons.
Qed.

Lemma every_handed_over_object_is_destroyed_witness :
  ∃ freed devs,
    CoreInterface_destructor 0
      (set_memory [CoreInterfacePayloadPrivate.mk (ptr 8)] one_channel)
    = Some (freed, devs) ∧
    deleted ([EvDelete 5] ++ devs) ≡ₚ
    handed_over [OpHandle Float Opacity;
                 OpSetChannelData (mkHandle (ptr 0) Float Opacity) (ptr 5);
                 OpSetChannelData (mkHandle (ptr 0) Float Opacity) (ptr 8)].
Proof.
  apply (every_handed_over_object_is_destroyed 0
           [OpHandle Float Opacity;
            OpSetChannelData (mkHandle (ptr 0) Float Opacity) (ptr 5);
            OpSetChannelData (mkHandle (ptr 0) Float Opacity) (ptr 8)]
           (set_memory [CoreInterfacePayloadPrivate.mk (ptr 8)] one_channel)
           [EvDelete 5]).
  vm_compute. reflexivity.
Defined.

Example destructor_example :
  CoreInterface_destructor 0
    (set_memory [CoreInterfacePayloadPrivate.mk (ptr 8)] one_channel)
  = Some ([0], [EvDelete 8]).
Proof. vm_compute. reflexivity. Qed.

(* ===================================================================== *)
(** ** One notification round per channel *)

Lemma channelListChanged_calls_app evs1 evs2 :
  channelListChanged_calls (evs1 ++ evs2) =
  channelListChanged_calls evs1 ++ channelListChanged_calls evs2.
Proof. unfold channelListChanged_calls. apply bind_app. Qed.

Lemma channelListChanged_calls_round callbacks :
  channelListChanged_calls (invokeAll callbacks ChannelListChangedArgs) = callbacks.
Proof. induction callbacks as [|c cs IH]; [done|]. simpl. by rewrite IH. Qed.

Lemma channelListChanged_calls_other callbacks args :
  args ≠ ChannelListChangedArgs →
  channelListChanged_calls (invokeAll callbacks args) = [].
Proof.
  intros Hne. induction callbacks as [|c cs IH]; [done|].
  simpl. rewrite IH. by destruct args.
Qed.

Lemma channelListChanged_calls_delete d : channelListChanged_calls (delete_ d) = [].
Proof. by destruct d. Qed.

Lemma step_list_changed_round tid op s s' evs :
  step tid op s = Some (s', evs) → touches_channelListChanged op = false →
  channelListChanged s' = channelListChanged s ∧
  channelListChanged_calls evs =
    concat (replicate (length (memory s') - length (memory s)) (channelListChanged s)).
Proof.
  intros H Htouch.
  assert (Hhandle : ∀ t n h0 s1 e1, handle tid t n s = Some (h0, s1, e1) →
    channelListChanged s1 = channelListChanged s ∧
    channelListChanged_calls e1 =
      concat (replicate (length (memory s1) - length (memory s)) (channelListChanged s))).
  { intros t n h0 s1 e1 Hh.
    pose proof (handle_Some_thread _ _ _ _ _ Hh) as Hth.
    destruct (handle_cases tid t n s Hth) as [[_ He]|[(_ & _ & _ & He)|(_ & _ & He)]];
      rewrite He in Hh; simplify_eq; simpl; rewrite ?Nat.sub_diag; try done.
    rewrite length_app. simpl.
    replace (length (memory s) + 1 - length (memory s)) with 1 by lia.
    simpl. by rewrite channelListChanged_calls_round, app_nil_r. }
  destruct op; simpl in H, Htouch; try discriminate; unfold loadState in H;
    try (destruct (handle _ _ _ _) as [[[h0 s1] e1]|] eqn:Hh; simpl in H; simplify_eq;
         by eapply Hhandle).
  - step_inv H; rewrite ?length_insert, Nat.sub_diag; simpl; split; try done.
    + apply channelListChanged_calls_delete.
    + rewrite channelListChanged_calls_app, channelListChanged_calls_delete.
      by rewrite channelListChanged_calls_other.
  - step_inv H. rewrite Nat.sub_diag. split; [done|].
    by rewrite channelListChanged_calls_other.
  - step_inv H. by rewrite Nat.sub_diag.
  - step_inv H; by rewrite Nat.sub_diag.
  - simplify_eq. simpl. by rewrite Nat.sub_diag.
  - simplify_eq. simpl. by rewrite Nat.sub_diag.
Qed.

Lemma run_list_changed_rounds tid ops s s' evs :
  run tid ops s = Some (s', evs) →
  Forall (fun op => touches_channelListChanged op = false) ops →
  channelListChanged s' = channelListChanged s ∧
  channelListChanged_calls evs =
    concat (replicate (length (memory s') - length (memory s)) (channelListChanged s)).
Proof.
  revert s s' evs. induction ops as [|op ops IH]; intros s s' evs H Hall; simpl in H.
  - simplify_eq. by rewrite Nat.sub_diag.
  - apply Forall_cons in Hall as [Hop Hall].
    destruct (step tid op s) as [[s1 e1]|] eqn:H1; [|done].
    destruct (run tid ops s1) as [[s2 e2]|] eqn:H2; [|done].
    simplify_eq.
    destruct (step_list_changed_round _ _ _ _ _ H1 Hop) as [Hc1 He1].
    destruct (IH _ _ _ H2 Hall) as [Hc2 He2].
    split; [congruence|].
    rewrite channelListChanged_calls_app, He1, He2, Hc1.
    rewrite <- concat_app, <- replicate_add. do 2 f_equal.
    pose proof (step_memory_length _ _ _ _ _ H1).
    pose proof (run_memory_length _ _ _ _ _ H2). lia.
Qed.

Lemma run_register_listeners tid cc s :
  run tid (map OpChannelListChangedAdd cc) s =
  Some (set_channelListChanged (channelListChanged s ++ cc) s, []).
Proof.
  revert s. induction cc as [|c cc IH]; intros s; simpl.
  - rewrite app_nil_r. by destruct s.
  - rewrite IH. simpl. unfold addCallback. by rewrite <- app_assoc.
Qed.

Lemma length_payload_addrs_stored s :
  channels_wf s → length (payload_addrs (stored_handles s)) = length (stored_handles s).
Proof.
  intros Hwf.
  assert (Hall : Forall (fun h => ∃ p, m_payload h = ptr p) (stored_handles s)).
  { apply Forall_forall. intros h Hin.
    apply elem_of_stored_handles in Hin as (t & n & Hs).
    destruct (Hwf _ _ _ Hs) as (p & Hp & _). by exists p. }
  unfold payload_addrs. induction Hall as [|h hs [p Hp] _ IH]; [done|].
  rewrite bind_cons, Hp. simpl. by rewrite IH.
Qed.

(** X14. Listeners registered for the channel-list-changed notification
    before any channel is requested, and left registered, are called one
    round per channel: the calls of that notification over the whole
    history are the listeners in registration order, repeated once for
    each entry of [channels()]. *)
Theorem one_list_changed_round_per_channel tid mem0 cc ops s evs :
  run tid (map OpChannelListChangedAdd cc ++ ops) (CoreInterface_new tid mem0)
    = Some (s, evs) →
  Forall (fun op => touches_channelListChanged op = false) ops →
  channelListChanged_calls evs = concat (replicate (length (stored_handles s)) cc).
Proof.
  intros Hrun Hall.
  assert (Hr : reachable tid s) by (by eexists _, _, _).
  pose proof (run_owned_range _ _ _ _ _ Hrun) as Hrange.
  pose proof (run_memory_length _ _ _ _ _ Hrun) as Hlen. simpl in Hlen.
  assert (Hcount : length (stored_handles s) = length (memory s) - length mem0).
  { rewrite <- (length_payload_addrs_stored s (reachable_wf _ _ Hr)).
    transitivity (length (seq (length mem0) (length (memory s) - length mem0)));
      [|apply length_seq].
    apply Permutation_length, NoDup_Permutation.
    - apply NoDup_payload_addrs_stored, (reachable_inj tid), Hr.
    - apply NoDup_seq.
    - intros a. rewrite Hrange, elem_of_seq. lia. }
  rewrite run_app, run_register_listeners in Hrun. simpl in Hrun.
  destruct (run tid ops _) as [[s2 e2]|] eqn:H2; [|done]. simplify_eq.
  destruct (run_list_changed_rounds _ _ _ _ _ H2 Hall) as [_ He]. simpl in He.
  by rewrite Hcount, He.
Qed.

Lemma one_list_changed_round_per_channel_witness :
  channelListChanged_calls
    [EvCall 11 ChannelListChangedArgs; EvCall 12 ChannelListChangedArgs;
     EvCall 11 ChannelListChangedArgs; EvCall 12 ChannelListChangedArgs]
  = concat (replicate (length (stored_handles (set_channelListChanged [11; 12] two_channels)))
              [11; 12]).
Proof.
  apply (one_list_changed_round_per_channel 0 [] [11; 12]
           [OpHandle Float Opacity; OpHandle Float Opacity; OpHandle Float Save]
           (set_channelListChanged [11; 12] two_channels)).
  - vm_compute. reflexivity.
  - repeat constructor.
Defined.

(* ===================================================================== *)
(** ** Registering and unregistering signal listeners *)

Lemma tpRemoveOne_notin callbacks c : c ∉ callbacks → tpRemoveOne callbacks c = callbacks.
Proof.
  induction callbacks as [|x l IH]; intros Hnin; simpl; [done|].
  apply not_elem_of_cons in Hnin as [Hne Hnin].
  rewrite decide_False by congruence. by rewrite IH.
Qed.

Lemma tpRemoveOne_first l1 l2 c : c ∉ l1 → tpRemoveOne (l1 ++ c :: l2) c = l1 ++ l2.
Proof.
  induction l1 as [|x l1 IH]; intros Hnin; simpl.
  - by rewrite decide_True.
  - apply not_elem_of_cons in Hnin as [Hne Hnin].
    rewrite decide_False by congruence. by rewrite IH.
Qed.

Lemma step_no_empty_entry tid op s s' evs :
  step tid op s = Some (s', evs) → is_sendSignal op = false →
  no_empty_entry s → no_empty_entry s'.
Proof.
  intros H Hsend Hne t.
  destruct op; simpl in Hsend; try discriminate;
    try (step_inv H; by apply Hne).
  - (* registerCallback *)
    simpl in H. unfold registerCallback, effect in H. destruct (checkThread tid s); simpl in H; [|done].
    simplify_eq. simpl. rewrite lookup_insert. case_decide; [|by apply Hne].
    intros [= Heq]. by apply app_nil in Heq as [_ [=]].
  - (* unregisterCallback *)
    simpl in H. unfold unregisterCallback, effect in H. destruct (checkThread tid s); simpl in H; [|done].
    simplify_eq. simpl.
    destruct (tpRemoveOne _ callback) as [|c cs].
    + rewrite lookup_delete. case_decide; [done | by apply Hne].
    + rewrite lookup_insert. case_decide; [done | by apply Hne].
Qed.

Lemma run_no_empty_entry tid ops s s' evs :
  no_empty_entry s → run tid ops s = Some (s', evs) →
  Forall (fun op => is_sendSignal op = false) ops → no_empty_entry s'.
Proof.
  revert s s' evs. induction ops as [|op ops IH]; intros s s' evs H0 H Hall; simpl in H.
  - by simplify_eq.
  - apply Forall_cons in Hall as [Hop Hall].
    destruct (step tid op s) as [[s1 e1]|] eqn:H1; [|done].
    destruct (run tid ops s1) as [[s2 e2]|] eqn:H2; [|done].
    simplify_eq. eapply (IH s1); [|done|done].
    by eapply step_no_empty_entry.
Qed.

(** X15. As long as no signal has been sent, the listener table has an
    entry for a type exactly when a listener is registered for it, and the
    entry is the list of registered listeners in registration order:
    [registerCallback] creates the entry and [unregisterCallback] erases it
    with the last listener. *)
Theorem signal_table_entry_iff_listener_registered tid mem ops s evs t :
  run tid ops (CoreInterface_new tid mem) = Some (s, evs) →
  Forall (fun op => is_sendSignal op = false) ops →
  signalCallbacks s !! t =
    match registered t ops with
    | [] => None
    | listeners => Some listeners
    end.
Proof.
  intros Hrun Hall.
  assert (Hne : no_empty_entry s).
  { eapply run_no_empty_entry; [|exact Hrun|done].
    intros t0. simpl. by rewrite lookup_empty. }
  pose proof (run_signalListeners _ _ _ _ _ t Hrun) as Hl.
  change (fold_left (register_history t) ops
            (signalListeners (CoreInterface_new tid mem) t)) with (registered t ops) in Hl.
  rewrite <- Hl. unfold signalListeners.
  destruct (signalCallbacks s !! t) as [[|c cs]|] eqn:Hlook; simpl; try done.
  by destruct (Hne t).
Qed.

Lemma signal_table_entry_iff_listener_registered_witness :
  signalCallbacks (mkState [] 0 ∅ {[ Float := [33] ]} [] []) !! Save =
  match registered Save
          [OpRegisterCallback 31 Save; OpRegisterCallback 33 Float;
           OpUnregisterCallback 31 Save]
  with
  | [] => None
  | listeners => Some listeners
  end.
Proof.
  apply (signal_table_entry_iff_listener_registered 0 []
           [OpRegisterCallback 31 Save; OpRegisterCallback 33 Float;
            OpUnregisterCallback 31 Save]
           (mkState [] 0 ∅ {[ Float := [33] ]} [] []) []).
  - vm_compute. reflexivity.
  - repeat constructor.
Defined.

Lemma unregisterCallback_listeners tid c t s :
  checkThread tid s = true →
  ∃ s',
    unregisterCallback tid c t s = Some (tt, s', []) ∧
    memory s' = memory s ∧ ownerThread s' = ownerThread s ∧ channels s' = channels s ∧
    channelListChanged s' = channelListChanged s ∧ channelChanged s' = channelChanged s ∧
    signalListeners s' t = tpRemoveOne (signalListeners s t) c ∧
    (∀ t', t' ≠ t → signalListeners s' t' = signalListeners s t') ∧
    signalCallbacks s' !! t ≠ Some [].
Proof.
  intros Hth.
  destruct (unregisterCallback tid c t s) as [[[u s'] e]|] eqn:Hu.
  2:{ unfold unregisterCallback in Hu. by rewrite Hth in Hu. }
  pose proof (step_signalListeners tid (OpUnregisterCallback c t) s s' e) as Hl.
  simpl in Hl. rewrite Hu in Hl. simpl in Hl.
  unfold unregisterCallback in Hu. rewrite Hth in Hu. simpl in Hu. simplify_eq.
  eexists. split; [done|]. simpl.
  do 5 (split; [done|]). split.
  { rewrite (Hl t eq_refl). by rewrite decide_True. }
  split.
  { intros t' Hne. rewrite (Hl t' eq_refl). by rewrite decide_False. }
  destruct (tpRemoveOne _ c) as [|x xs].
  - by rewrite lookup_delete_eq.
  - by rewrite lookup_insert_eq.
Qed.

(** X16. [unregisterCallback(c, t)] takes away one registration of [c] for
    [t], the earliest, and nothing else: the other listeners of [t] keep
    their order, the listeners of every other type, the payloads and the
    channels stay as they were, and a listener that is not registered for
    [t] makes the call change nothing a later call can observe.  It never
    leaves an empty entry for [t] in the table. *)
Theorem unregisterCallback_removes_one_registration tid c t s :
  checkThread tid s = true →
  ∃ s',
    unregisterCallback tid c t s = Some (tt, s', []) ∧
    memory s' = memory s ∧ channels s' = channels s ∧
    (∀ t', t' ≠ t → signalListeners s' t' = signalListeners s t') ∧
    (c ∉ signalListeners s t → observably_equal s s') ∧
    (∀ l1 l2, signalListeners s t = l1 ++ c :: l2 → c ∉ l1 →
              signalListeners s' t = l1 ++ l2) ∧
    signalCallbacks s' !! t ≠ Some [].
Proof.
  intros Hth.
  destruct (unregisterCallback_listeners tid c t s Hth)
    as (s' & Hu & Hm & Ho & Hc & Hl & Hcc & Ht & Hother & Hne).
  exists s'. split; [done|]. split; [done|]. split; [done|]. split; [done|].
  split; [|split; [|done]].
  - intros Hnin. repeat split; try done.
    intros t'. destruct (decide (t' = t)) as [->|Hne'].
    + by rewrite Ht, tpRemoveOne_notin.
    + by rewrite Hother.
  - intros l1 l2 Heq Hnin. by rewrite Ht, Heq, tpRemoveOne_first.
Qed.

Lemma unregisterCallback_removes_one_registration_witness :
  ∃ s',
    unregisterCallback 0 31 Save (mkState [] 0 ∅ {[ Save := [32; 31; 33; 31] ]} [] [])
    = Some (tt, s', []) ∧
    signalListeners s' Save = [32] ++ [33; 31].
Proof.
  destruct (unregisterCallback_removes_one_registration 0 31 Save
              (mkState [] 0 ∅ {[ Save := [32; 31; 33; 31] ]} [] []) eq_refl)
    as (s' & Hu & _ & _ & _ & _ & Hfirst & _).
  exists s'. split; [exact Hu|].
  apply (Hfirst [32] [33; 31]); [reflexivity|].
  intros Hin. apply list_elem_of_singleton in Hin. discriminate.
Defined.

(** X17. [registerCallback(c, t)] followed by [unregisterCallback(c, t)]
    undoes the registration only when [c] was not registered for [t]
    before.  When it was, the pair of calls removes the earlier
    registration and keeps the new one, so [c] is now called after the
    listeners that used to follow it. *)
Theorem register_then_unregister_signal_listener tid c t s :
  checkThread tid s = true →
  ∃ s1 s2,
    registerCallback tid c t s = Some (tt, s1, []) ∧
    unregisterCallback tid c t s1 = Some (tt, s2, []) ∧
    (c ∉ signalListeners s t → observably_equal s s2) ∧
    (∀ l1 l2, signalListeners s t = l1 ++ c :: l2 → c ∉ l1 →
              signalListeners s2 t = l1 ++ l2 ++ [c]).
Proof.
  intros Hth.
  set (s1 := set_signalCallbacks
               (<[t := default [] (signalCallbacks s !! t) ++ [c]]> (signalCallbacks s)) s).
  assert (Hreg : registerCallback tid c t s = Some (tt, s1, [])).
  { unfold registerCallback. by rewrite Hth. }
  assert (Hl1 : ∀ t', signalListeners s1 t' =
                      register_history t' (signalListeners s t') (OpRegisterCallback c t)).
  { intros t'. apply (step_signalListeners tid _ s s1 []). simpl. by rewrite Hreg. }
  assert (Hth1 : checkThread tid s1 = true) by done.
  destruct (unregisterCallback_listeners tid c t s1 Hth1)
    as (s2 & Hu & Hm & Ho & Hc & Hl & Hcc & Ht & Hother & Hne).
  exists s1, s2. split; [done|]. split; [done|].
  assert (Ht1 : signalListeners s1 t = signalListeners s t ++ [c]).
  { rewrite Hl1. simpl. by rewrite decide_True. }
  split.
  - intros Hnin. repeat split; try done.
    intros t'. destruct (decide (t' = t)) as [->|Hne'].
    + rewrite Ht, Ht1.
      rewrite (tpRemoveOne_first (signalListeners s t) [] c Hnin).
      by rewrite app_nil_r.
    + rewrite Hother by done. rewrite Hl1. simpl. by rewrite decide_False.
  - intros l1 l2 Heq Hnin. rewrite Ht, Ht1, Heq, <- app_assoc. simpl.
    by rewrite tpRemoveOne_first.
Qed.

Lemma register_then_unregister_signal_listener_witness :
  ∃ s1 s2,
    registerCallback 0 31 Save (mkState [] 0 ∅ {[ Save := [31; 32] ]} [] [])
      = Some (tt, s1, []) ∧
    unregisterCallback 0 31 Save s1 = Some (tt, s2, []) ∧
    signalListeners s2 Save = [] ++ [32] ++ [31].
Proof.
  destruct (register_then_unregister_signal_listener 0 31 Save
              (mkState [] 0 ∅ {[ Save := [31; 32] ]} [] []) eq_refl)
    as (s1 & s2 & Hr & Hu & _ & Hmove).
  exists s1, s2. split; [exact Hr|]. split; [exact Hu|].
  apply (Hmove [] [32]); [reflexivity|]. intros Hin. by apply elem_of_nil in Hin.
Defined.

(* ===================================================================== *)
(** ** Registering and unregistering channel listeners *)

(** X18. [registerCallback] for the channel-list-changed notification puts
    the listener last: the next channel that is created calls the earlier
    listeners in their order and then the new one.  It touches nothing
    else, and [unregisterCallback] of a listener that was not registered
    before takes the registry back to the state it was in; of a listener
    registered several times it removes the earliest registration only. *)
Theorem channel_list_listener_registration tid c s :
  checkThread tid s = true →
  ∃ s1,
    registerCallback_ChannelListChanged tid c s = Some (tt, s1, []) ∧
    memory s1 = memory s ∧ channels s1 = channels s ∧
    signalCallbacks s1 = signalCallbacks s ∧ channelChanged s1 = channelChanged s ∧
    (∀ t n, StringID_isValid t = true → StringID_isValid n = true →
            slot s t n = None →
            ∃ h s2, handle tid t n s1 =
                    Some (h, s2,
                          invokeAll (channelListChanged s) ChannelListChangedArgs ++
                          [EvCall c ChannelListChangedArgs])) ∧
    (c ∉ channelListChanged s →
       unregisterCallback_ChannelListChanged tid c s1 = Some (tt, s, [])) ∧
    (∀ l1 l2, channelListChanged s = l1 ++ c :: l2 → c ∉ l1 →
       ∃ s3, unregisterCallback_ChannelListChanged tid c s = Some (tt, s3, []) ∧
             channelListChanged s3 = l1 ++ l2).
Proof.
  intros Hth. unfold registerCallback_ChannelListChanged, unregisterCallback_ChannelListChanged.
  rewrite Hth. simpl. eexists. split; [done|]. simpl.
  do 4 (split; [done|]). split; [|split].
  - intros t n Ht Hn Hnone.
    destruct (handle_creates tid t n
                (set_channelListChanged (channelListChanged s ++ [c]) s))
      as (s2 & He & _); try done.
    eexists _, s2. rewrite He. simpl. unfold invokeAll. by rewrite map_app.
  - intros Hnin. unfold checkThread in *. simpl. rewrite Hth. simpl.
    rewrite (tpRemoveOne_first (channelListChanged s) [] c Hnin), app_nil_r.
    by destruct s.
  - intros l1 l2 Heq Hnin. eexists. split; [done|]. simpl.
    by rewrite Heq, tpRemoveOne_first.
Qed.

Lemma channel_list_listener_registration_witness :
  ∃ h s2,
    handle 0 Float Save (set_channelListChanged ([11] ++ [12])
                           (set_channelListChanged [11] one_channel))
    = Some (h, s2,
            invokeAll [11] ChannelListChangedArgs ++ [EvCall 12 ChannelListChangedArgs]).
Proof.
  destruct (channel_list_listener_registration 0 12
              (set_channelListChanged [11] one_channel) eq_refl)
    as (s1 & Hreg & _ & _ & _ & _ & Hnext & _).
  injection Hreg as <-.
  apply (Hnext Float Save); reflexivity.
Defined.

(** X19. [registerCallback] for the channel-changed notification puts the
    listener last: the next write to a channel calls the earlier listeners
    in their order and then the new one, all with the same keys and data.
    It touches nothing else, and [unregisterCallback] of a listener that
    was not registered before takes the registry back to the state it was
    in; of a listener registered several times it removes the earliest
    registration only. *)
Theorem channel_changed_listener_registration tid c s :
  checkThread tid s = true →
  ∃ s1,
    registerCallback_ChannelChanged tid c s = Some (tt, s1, []) ∧
    memory s1 = memory s ∧ channels s1 = channels s ∧
    signalCallbacks s1 = signalCallbacks s ∧
    channelListChanged s1 = channelListChanged s ∧
    (∀ h p old d, m_payload h = ptr p → memory s !! p = Some old →
       ∃ s2, setChannelData tid h d s1 =
             Some (tt, s2,
                   delete_ (CoreInterfacePayloadPrivate.data old) ++
                   invokeAll (channelChanged s) (ChannelChangedArgs (m_typeID h) (m_nameID h) d) ++
                   [EvCall c (ChannelChangedArgs (m_typeID h) (m_nameID h) d)])) ∧
    (c ∉ channelChanged s →
       unregisterCallback_ChannelChanged tid c s1 = Some (tt, s, [])) ∧
    (∀ l1 l2, channelChanged s = l1 ++ c :: l2 → c ∉ l1 →
       ∃ s3, unregisterCallback_ChannelChanged tid c s = Some (tt, s3, []) ∧
             channelChanged s3 = l1 ++ l2).
Proof.
  intros Hth. unfold registerCallback_ChannelChanged, unregisterCallback_ChannelChanged.
  rewrite Hth. simpl. eexists. split; [done|]. simpl.
  do 4 (split; [done|]). split; [|split].
  - intros h p old d Hp Hold.
    assert (Hlt : p < length (memory s)) by (by eapply lookup_lt_Some).
    unfold setChannelData. unfold checkThread in *. simpl. rewrite Hth, Hp, Hold. simpl.
    rewrite list_lookup_insert_eq by done. simpl.
    eexists. unfold invokeAll. by rewrite map_app.
  - intros Hnin. unfold checkThread in *. simpl. rewrite Hth. simpl.
    rewrite (tpRemoveOne_first (channelChanged s) [] c Hnin), app_nil_r.
    by destruct s.
  - intros l1 l2 Heq Hnin. eexists. split; [done|]. simpl.
    by rewrite Heq, tpRemoveOne_first.
Qed.

Lemma channel_changed_listener_registration_witness :
  ∃ s2,
    setChannelData 0 (mkHandle (ptr 0) Float Opacity) (ptr 5)
      (set_channelChanged ([21] ++ [22]) (set_channelChanged [21] one_channel))
    = Some (tt, s2,
            delete_ nullptr ++
            invokeAll [21] (ChannelChangedArgs Float Opacity (ptr 5)) ++
            [EvCall 22 (ChannelChangedArgs Float Opacity (ptr 5))]).
Proof.
  destruct (channel_changed_listener_registration 0 22
              (set_channelChanged [21] one_channel) eq_refl)
    as (s1 & Hreg & _ & _ & _ & _ & Hnext & _).
  injection Hreg as <-.
  apply (Hnext (mkHandle (ptr 0) Float Opacity) 0 CoreInterfacePayloadPrivate.fresh (ptr 5));
    reflexivity.
Defined.

(* ===================================================================== *)
(** ** Sorting handles for display *)

Lemma StringID_eq k1 k2 : toString k1 = toString k2 → k1 = k2.
Proof. destruct k1, k2. simpl. by intros ->. Qed.

Lemma String_ltb_lt s1 s2 :
  String.ltb s1 s2 = true ↔ String.compare s1 s2 = Lt.
Proof. unfold String.ltb. destruct (String.compare s1 s2); split; congruence. Qed.

(** X20. [lessThanCoreInterfaceHandle] is a strict weak order that looks
    at the name only: it is irreflexive, asymmetric and transitive, two
    handles are unordered exactly when their names are equal, whatever
    their types and payloads, and handles with the same name compare alike
    with every other handle. *)
Theorem lessThanCoreInterfaceHandle_orders_by_name_only :
  (∀ a, lessThanCoreInterfaceHandle a a = false) ∧
  (∀ a b, lessThanCoreInterfaceHandle a b = true →
          lessThanCoreInterfaceHandle b a = false) ∧
  (∀ a b c, lessThanCoreInterfaceHandle a b = true →
            lessThanCoreInterfaceHandle b c = true →
            lessThanCoreInterfaceHandle a c = true) ∧
  (∀ a b, lessThanCoreInterfaceHandle a b = false ∧
          lessThanCoreInterfaceHandle b a = false ↔ nameID a = nameID b) ∧
  (∀ a a' b, nameID a = nameID a' →
             lessThanCoreInterfaceHandle a b = lessThanCoreInterfaceHandle a' b ∧
             lessThanCoreInterfaceHandle b a = lessThanCoreInterfaceHandle b a').
Proof.
  assert (Hrefl : ∀ str, String.compare str str = Eq).
  { intros str. by apply OrderedTypeEx.String_as_OT.cmp_eq. }
  unfold lessThanCoreInterfaceHandle. split; [|split; [|split; [|split]]].
  - intros a. unfold String.ltb. by rewrite Hrefl.
  - intros a b Hab. apply String_ltb_lt in Hab.
    unfold String.ltb. rewrite String.compare_antisym, Hab. done.
  - intros a b c Hab Hbc. apply String_ltb_lt in Hab, Hbc. apply String_ltb_lt.
    apply OrderedTypeEx.String_as_OT.cmp_lt in Hab, Hbc.
    apply OrderedTypeEx.String_as_OT.cmp_lt.
    by eapply OrderedTypeEx.String_as_OT.lt_trans.
  - intros a b. split.
    + intros [Hab Hba]. apply StringID_eq.
      apply OrderedTypeEx.String_as_OT.cmp_eq.
      change (String.compare (toString (nameID a)) (toString (nameID b)) = Eq).
      unfold String.ltb in Hab, Hba. rewrite String.compare_antisym in Hba.
      destruct (String.compare (toString (nameID a)) (toString (nameID b)));
        simpl in *; congruence.
    + intros ->. unfold String.ltb. by rewrite Hrefl.
  - intros a a' b ->. done.
Qed.

Lemma lessThanCoreInterfaceHandle_orders_by_name_only_witness :
  lessThanCoreInterfaceHandle (mkHandle (ptr 0) Float Opacity) (mkHandle (ptr 1) Save Save)
    = true ∧
  lessThanCoreInterfaceHandle (mkHandle (ptr 1) Save Save) (mkHandle (ptr 0) Float Opacity)
    = false.
Proof.
  destruct lessThanCoreInterfaceHandle_orders_by_name_only as (_ & Hasym & _).
  split; [reflexivity|].
  apply (Hasym (mkHandle (ptr 0) Float Opacity) (mkHandle (ptr 1) Save Save)).
  reflexivity.
Defined.

Example lessThan_prefix_example :
  lessThanCoreInterfaceHandle (mkHandle nullptr Float (mkStringID "A"))
                              (mkHandle nullptr Save (mkStringID "AB")) = true
  ∧ lessThanCoreInterfaceHandle (mkHandle nullptr Float (mkStringID "B"))
                                (mkHandle nullptr Save (mkStringID "AB")) = false.
Proof. split; reflexivity. Qed.

(* ===================================================================== *)
(** ** What only [setChannelData] does *)

(** X21. No call other than [setChannelData] destroys a data object or
    changes what a payload holds: after [handle], [loadState],
    [sendSignal] or any registration call, nothing has been deleted and
    [data()] of every handle that could be read before reads the same. *)
Theorem only_setChannelData_destroys_or_overwrites tid op s s' evs :
  step tid op s = Some (s', evs) →
  (∀ h d, op ≠ OpSetChannelData h d) →
  deleted evs = [] ∧
  (∀ p pl, memory s !! p = Some pl → memory s' !! p = Some pl) ∧
  (∀ h v, data h (memory s) = Some v → data h (memory s') = Some v).
Proof.
  intros H Hop.
  assert (Hmem : ∀ p pl, memory s !! p = Some pl → memory s' !! p = Some pl).
  { intros p pl Hp. eapply step_memory_unwritten; [|done|done].
    destruct op; try done. by destruct (Hop h data0). }
  split; [|split; [done|]].
  - assert (Hhandle : ∀ t n h0 s1 e1, handle tid t n s = Some (h0, s1, e1) → deleted e1 = []).
    { intros t n h0 s1 e1 Hh.
      pose proof (handle_Some_thread _ _ _ _ _ Hh) as Hth.
      destruct (handle_cases tid t n s Hth) as [[_ He]|[(_ & _ & _ & He)|(_ & _ & He)]];
        rewrite He in Hh; simplify_eq; try done.
      apply deleted_invokeAll. }
    destruct op; simpl in H; unfold loadState in H;
      try (destruct (handle _ _ _ _) as [[[h0 s1] e1]|] eqn:Hh; simpl in H; simplify_eq;
           by eapply Hhandle).
    + by destruct (Hop h data0).
    + step_inv H. apply deleted_invokeAll.
    + by step_inv H.
    + by step_inv H.
    + by simplify_eq.
    + by simplify_eq.
    + by simplify_eq.
    + by simplify_eq.
  - intros h v. unfold data. destruct (m_payload h) as [|p]; [done|].
    destruct (memory s !! p) as [pl|] eqn:Hp; [|done].
    by rewrite (Hmem p pl Hp).
Qed.

Lemma only_setChannelData_destroys_or_overwrites_witness :
  deleted [EvCall 31 (SignalArgs Save (ptr 7))] = [].
Proof.
  apply (only_setChannelData_destroys_or_overwrites 0 (OpSendSignal Save (ptr 7))
           (mkState [CoreInterfacePayloadPrivate.mk (ptr 5)] 0 ∅ {[ Save := [31] ]} [] [])
           (mkState [CoreInterfacePayloadPrivate.mk (ptr 5)] 0 ∅
              (<[Save := [31]]> {[ Save := [31] ]}) [] [])).
  - vm_compute. reflexivity.
  - intros h d. discriminate.
Defined.
